(** * duet-kit: the patch engine of [createDuet], embedded and verified

    The development follows [src/duet.ts] ([createDuet], its store and its
    LLM bridge), [src/schema.ts] ([DuetSchema]) and [src/types.ts].

    JavaScript objects are shared by reference, and the engine relies on
    that: the live snapshot, the working copy of a batch and the registered
    defaults may all point at the same object.  The model therefore keeps a
    heap of cells.  Every top-level field value lives in a cell and the
    store, the working copy and the field definitions hold locations.

    Scope of the run-time layer (strict-mode ECMAScript semantics):
    - values are JSON trees over integers, plus [undefined];
    - only own properties are modelled: members inherited from
      [Object.prototype] or [Array.prototype] are outside the model, and
      [in] is the own-key test.  General statements about arbitrary keys
      or path segments therefore exclude the names that every object
      inherits ([inherited_name]), on which the own-key test and [in]
      differ;
    - arrays are index-keyed containers with a [length]; a hole is an
      [undefined] element; other named properties of arrays are ignored;
    - validators (Zod schemas) are pure functions of the value they parse
      and their output is a freshly built value, as Zod's object schemas
      produce. *)

From Stdlib Require Import ZArith String Ascii List Bool Lia.
From stdpp Require Import base list strings pretty.

Local Open Scope string_scope.
Local Open Scope list_scope.

(** ** Values *)

#[local] Set Warnings "-register-all".

Inductive value : Type :=
| VUndef
| VNull
| VBool (b : bool)
| VNum (n : Z)
| VStr (s : string)
| VArr (xs : list value)
| VObj (kvs : list (string * value)).

(** A JavaScript object used as a record: insertion-ordered own keys. *)
Definition obj (A : Type) : Type := list (string * A).

Section Obj.
Context {A : Type}.

(** [o[k]] *)
Fixpoint lookup_key (k : string) (o : obj A) : option A :=
  match o with
  | [] => None
  | (k', v) :: rest => if String.eqb k k' then Some v else lookup_key k rest
  end.

(** [k in o] (own keys) *)
Definition has_key (k : string) (o : obj A) : bool :=
  match lookup_key k o with Some _ => true | None => false end.

(** [o[k] = v]: an existing key keeps its position, a new key is appended. *)
Fixpoint assign (k : string) (v : A) (o : obj A) : obj A :=
  match o with
  | [] => [(k, v)]
  | (k', v') :: rest =>
      if String.eqb k k' then (k', v) :: rest else (k', v') :: assign k v rest
  end.

(** [delete o[k]] *)
Fixpoint remove_key (k : string) (o : obj A) : obj A :=
  match o with
  | [] => []
  | (k', v') :: rest =>
      if String.eqb k k' then remove_key k rest else (k', v') :: remove_key k rest
  end.

(** [{ ...a, ...b }] *)
Definition spread (a b : obj A) : obj A :=
  fold_left (fun acc kv => assign (fst kv) (snd kv) acc) b a.
End Obj.

(** ** Exceptions and outcomes

    The text of an error message is up to the JavaScript engine; the texts
    below are for reading only and no statement depends on them. *)

Inductive exn : Type :=
| TypeError (msg : string)
| SyntaxError (msg : string)
| RangeError (msg : string).

Definition exn_message (e : exn) : string :=
  match e with TypeError m | SyntaxError m | RangeError m => m end.

Inductive outcome (A : Type) : Type :=
| Ret (a : A)
| Throw (e : exn).
Arguments Ret {A} a.
Arguments Throw {A} e.

#[global] Instance outcome_ret : MRet outcome := fun A a => Ret a.
#[global] Instance outcome_bind : MBind outcome := fun A B k c =>
  match c with Ret a => k a | Throw e => Throw e end.

(** ** Property access on run-time values *)

Definition digit_of (c : ascii) : option nat :=
  let n := nat_of_ascii c in
  if (48 <=? n)%nat && (n <=? 57)%nat then Some (n - 48)%nat else None.

Fixpoint digits (s : string) (acc : nat) : option nat :=
  match s with
  | EmptyString => Some acc
  | String c s' =>
      match digit_of c with
      | Some d => digits s' (10 * acc + d)%nat
      | None => None
      end
  end.

(** A canonical array index: decimal digits without a leading zero. *)
Definition parse_index (s : string) : option nat :=
  match s with
  | EmptyString => None
  | String "0"%char EmptyString => Some 0%nat
  | String "0"%char _ => None
  | _ => digits s 0
  end.

Definition elem_at (xs : list value) (i : nat) : value :=
  match xs !! i with Some v => v | None => VUndef end.

Definition is_undef (v : value) : bool :=
  match v with VUndef => true | _ => false end.

(** [target[k]] *)
Definition get_prop (target : value) (k : string) : outcome value :=
  match target with
  | VUndef => Throw (TypeError "Cannot read properties of undefined")
  | VNull => Throw (TypeError "Cannot read properties of null")
  | VObj kvs =>
      Ret (match lookup_key k kvs with Some v => v | None => VUndef end)
  | VArr xs =>
      if String.eqb k "length" then Ret (VNum (Z.of_nat (length xs)))
      else match parse_index k with
           | Some i => Ret (elem_at xs i)
           | None => Ret VUndef
           end
  | VStr s =>
      if String.eqb k "length" then Ret (VNum (Z.of_nat (String.length s)))
      else match parse_index k with
           | Some i =>
               match String.get i s with
               | Some c => Ret (VStr (String c EmptyString))
               | None => Ret VUndef
               end
           | None => Ret VUndef
           end
  | VBool _ | VNum _ => Ret VUndef
  end.

(** [k in target]: a [TypeError] on anything that is not an object. *)
Definition has_prop (target : value) (k : string) : outcome bool :=
  match target with
  | VObj kvs => Ret (has_key k kvs)
  | VArr xs =>
      if String.eqb k "length" then Ret true
      else match parse_index k with
           | Some i => Ret (negb (is_undef (elem_at xs i)))
           | None => Ret false
           end
  | _ => Throw (TypeError "Cannot use 'in' operator to search for a key in a primitive")
  end.

(** Array write at an index: holes fill the gap when the index is past the end. *)
Definition arr_store (xs : list value) (i : nat) (v : value) : list value :=
  if (i <? length xs)%nat then <[i:=v]> xs
  else xs ++ repeat VUndef (i - length xs) ++ [v].

Definition arr_resize (xs : list value) (n : nat) : list value :=
  firstn n xs ++ repeat VUndef (n - length xs).

(** [target[k] = v] in strict mode.  Writing an array's [length] resizes it
    for a non-negative number; the numeric coercion JavaScript applies to
    other values first is not modelled. *)
Definition set_prop (target : value) (k : string) (v : value) : outcome value :=
  match target with
  | VUndef => Throw (TypeError "Cannot set properties of undefined")
  | VNull => Throw (TypeError "Cannot set properties of null")
  | VObj kvs => Ret (VObj (assign k v kvs))
  | VArr xs =>
      if String.eqb k "length" then
        match v with
        | VNum n =>
            if (0 <=? n)%Z then Ret (VArr (arr_resize xs (Z.to_nat n)))
            else Throw (RangeError "Invalid array length")
        | _ => Throw (RangeError "Invalid array length")
        end
      else match parse_index k with
           | Some i => Ret (VArr (arr_store xs i v))
           | None => Ret target
           end
  | VBool _ | VNum _ | VStr _ =>
      Throw (TypeError "Cannot create property on a primitive")
  end.

(** [delete target[k]] in strict mode. *)
Definition delete_prop (target : value) (k : string) : outcome value :=
  match target with
  | VUndef | VNull => Throw (TypeError "Cannot convert undefined or null to object")
  | VObj kvs => Ret (VObj (remove_key k kvs))
  | VArr xs =>
      if String.eqb k "length" then Throw (TypeError "Cannot delete property 'length'")
      else match parse_index k with
           | Some i => Ret (VArr (<[i:=VUndef]> xs))
           | None => Ret target
           end
  | VStr s =>
      if String.eqb k "length" then Throw (TypeError "Cannot delete property 'length'")
      else match parse_index k with
           | Some i =>
               if (i <? String.length s)%nat
               then Throw (TypeError "Cannot delete property of a string")
               else Ret target
           | None => Ret target
           end
  | VBool _ | VNum _ => Ret target
  end.

(** After [child = target[k]] was mutated in place, [target] shows the change:
    [child] is the very object stored under [k]. *)
Definition put_back (target : value) (k : string) (child : value) : value :=
  match target with
  | VObj kvs => if has_key k kvs then VObj (assign k child kvs) else target
  | VArr xs =>
      match parse_index k with
      | Some i => VArr (<[i:=child]> xs)
      | None => target
      end
  | _ => target
  end.

(** [JSON.parse(JSON.stringify(v))] for a value nested in a container:
    [undefined] members of objects are dropped, [undefined] elements of
    arrays become [null]. *)
Fixpoint clone_inner (v : value) : value :=
  match v with
  | VUndef => VNull
  | VArr xs => VArr (map clone_inner xs)
  | VObj kvs =>
      VObj ((fix members (kvs : list (string * value)) : list (string * value) :=
               match kvs with
               | [] => []
               | (k, x) :: rest =>
                   if is_undef x then members rest
                   else (k, clone_inner x) :: members rest
               end) kvs)
  | _ => v
  end.

(** [JSON.parse(JSON.stringify(v))]: [JSON.stringify(undefined)] is
    [undefined], which [JSON.parse] rejects. *)
Definition json_clone (v : value) : outcome value :=
  match v with
  | VUndef => Throw (SyntaxError "undefined is not valid JSON")
  | _ => Ret (clone_inner v)
  end.

(** [Array.isArray] *)
Definition isArray (v : value) : bool :=
  match v with VArr _ => true | _ => false end.

(** The elements of an array value. *)
Definition elements (v : value) : list value :=
  match v with VArr xs => xs | _ => [] end.

(** Truthiness of a value in a condition. *)
Definition truthy (v : value) : bool :=
  match v with
  | VUndef | VNull => false
  | VBool b => b
  | VNum n => negb (n =? 0)%Z
  | VStr s => negb (String.eqb s "")
  | VArr _ | VObj _ => true
  end.

(** [v === s] for a string literal [s]. *)
Definition is_str (v : value) (s : string) : bool :=
  match v with VStr t => String.eqb t s | _ => false end.

(** ** Paths *)

(** [s.replace(/^\//, '')] *)
Definition strip_slash (s : string) : string :=
  match s with
  | String "/"%char rest => rest
  | _ => s
  end.

(** [s.split('/')] *)
Fixpoint split_slash (s : string) : list string :=
  match s with
  | EmptyString => [EmptyString]
  | String c rest =>
      if Ascii.eqb c "/"%char then EmptyString :: split_slash rest
      else match split_slash rest with
           | x :: xs => String c x :: xs
           | [] => [String c EmptyString]
           end
  end.

(** The walks of the nested branches.  [segs] is [pathParts.slice(1)]: the
    intermediate segments followed by the final one. *)

(** Nested [remove]: follow the intermediate segments with plain property
    reads, then [delete] the final key.  The result is the root value after
    the in-place deletion. *)
Fixpoint nav_delete (target : value) (segs : list string) : outcome value :=
  match segs with
  | [] => Ret target
  | [last] => delete_prop target last
  | seg :: rest =>
      child ← get_prop target seg;
      child' ← nav_delete child rest;
      Ret (put_back target seg child')
  end.

(** Nested [replace]/[add]: create missing intermediate objects, then assign
    the final key. *)
Fixpoint nav_set (target : value) (segs : list string) (v : value) : outcome value :=
  match segs with
  | [] => Ret target
  | [last] => set_prop target last v
  | seg :: rest =>
      present ← has_prop target seg;
      target1 ← (if present : bool then Ret target else set_prop target seg (VObj []));
      child ← get_prop target1 seg;
      child' ← nav_set child rest v;
      Ret (put_back target1 seg child')
  end.

(** ** Data model ([src/types.ts]) *)

Definition loc : Type := nat.

(** Outcome of Zod's [safeParse]: the parsed data, or the message of the
    first issue. *)
Inductive parse_result : Type :=
| ParseOk (data : value)
| ParseErr (message : string).

Record FieldDef : Type := mkFieldDef {
  schema : value -> parse_result;
  label : string;
  default : loc
}.

Definition SchemaFields : Type := obj FieldDef.

Inductive Source : Type := user | llm | system.

Inductive EditResult : Type :=
| Success (applied : nat)
| Failure (error : string).

Record HistoryEntry : Type := mkHistoryEntry {
  id : string;
  timestamp : Z;
  patch : list value;
  source : Source;
  result : EditResult
}.

(** [DuetSchema] ([src/schema.ts]) *)
Record DuetSchema : Type := mkDuetSchema {
  name : string;
  fields : SchemaFields
}.

(** Everything one [createDuet] instance can change: the heap of root
    objects, the store's [data] record, and the closure variables
    [patchHistory] and [historyId]. *)
Record World : Type := mkWorld {
  heap : list value;
  data : obj loc;
  patchHistory : list HistoryEntry;
  historyId : nat
}.

(** ** The monad of the engine: state, with exceptions that keep the state *)

Definition M (A : Type) : Type := World -> outcome A * World.

#[global] Instance M_ret : MRet M := fun A a w => (Ret a, w).
#[global] Instance M_bind : MBind M := fun A B k c w =>
  match c w with
  | (Ret a, w') => k a w'
  | (Throw e, w') => (Throw e, w')
  end.

Definition lift {A} (c : outcome A) : M A := fun w => (c, w).

Definition deref (h : list value) (l : loc) : value :=
  match h !! l with Some v => v | None => VUndef end.

(** The value a slot of a record denotes; a missing slot reads [undefined]. *)
Definition slot_value (h : list value) (s : option loc) : value :=
  match s with Some l => deref h l | None => VUndef end.

Definition read_slot (s : option loc) : M value :=
  fun w => (Ret (slot_value (heap w) s), w).

(** A freshly built object. *)
Definition alloc (v : value) : M loc :=
  fun w => (Ret (length (heap w)),
            mkWorld (heap w ++ [v]) (data w) (patchHistory w) (historyId w)).

(** In-place mutation of the object at [l]. *)
Definition write_slot (s : option loc) (v : value) : M unit :=
  fun w => (Ret tt,
            match s with
            | Some l => mkWorld (<[l:=v]> (heap w)) (data w) (patchHistory w) (historyId w)
            | None => w
            end).

Definition get_data : M (obj loc) := fun w => (Ret (data w), w).

(** Zustand's [set(() => ({ data: d }))] *)
Definition set_data (d : obj loc) : M unit :=
  fun w => (Ret tt, mkWorld (heap w) d (patchHistory w) (historyId w)).

(** A record of locations seen through the heap. *)
Definition view (h : list value) (o : obj loc) : obj value :=
  map (fun kv => (fst kv, deref h (snd kv))) o.

(** The observable snapshot: every slot of [data] with the value it holds. *)
Definition snapshot (w : World) : obj value := view (heap w) (data w).

(** Every slot of the record points at an object of the heap. *)
Definition valid_locs (h : list value) (o : obj loc) : Prop :=
  Forall (fun kv => snd kv < length h) o.

(** ** DuetSchema *)

(** [getDefaults()] *)
Definition getDefaults (S : DuetSchema) : obj loc :=
  fold_left (fun defaults kf => assign (fst kf) (default (snd kf)) defaults)
            (fields S) [].

(** [validate(field, value)]: [this.fields[field].schema.safeParse(value)] *)
Definition validate (S : DuetSchema) (field : string) (v : value) : outcome parse_result :=
  match lookup_key field (fields S) with
  | Some fd => Ret (schema fd v)
  | None => Throw (TypeError "Cannot read properties of undefined (reading 'schema')")
  end.

(** ** The store ([storeCreator] in [createDuet]) *)

(** [set(field, value)] *)
Definition set (S : DuetSchema) (field : string) (v : value) : M bool :=
  r ← lift (validate S field v);
  match r with
  | ParseErr _ => mret false
  | ParseOk d =>
      l ← alloc d;
      cur ← get_data;
      _ ← set_data (assign field l cur);
      mret true
  end.

(** The [for] loop of [setMany]: [None] is the early [return false]. *)
Fixpoint setMany_loop (S : DuetSchema) (entries : list (string * loc))
    (validated : obj loc) : M (option (obj loc)) :=
  match entries with
  | [] => mret (Some validated)
  | (key, l) :: rest =>
      if has_key key (fields S) then
        v ← read_slot (Some l);
        r ← lift (validate S key v);
        match r with
        | ParseErr _ => mret None
        | ParseOk d =>
            l' ← alloc d;
            setMany_loop S rest (assign key l' validated)
        end
      else setMany_loop S rest validated
  end.

(** [setMany(updates)] *)
Definition setMany (S : DuetSchema) (updates : obj loc) : M bool :=
  r ← setMany_loop S updates [];
  match r with
  | None => mret false
  | Some validated =>
      cur ← get_data;
      _ ← set_data (spread cur validated);
      mret true
  end.

(** What the loop of [setMany] decides for one entry: a key outside the
    schema is let through, a registered key must pass its validator. *)
Definition entry_ok (S : DuetSchema) (h : list value) (kv : string * loc) : bool :=
  match lookup_key (fst kv) (fields S) with
  | Some fd =>
      match schema fd (deref h (snd kv)) with
      | ParseOk _ => true
      | ParseErr _ => false
      end
  | None => true
  end.

(** The only change from [w] to [w'] is that new objects were built: the
    objects of [w], the store's record and the log are as they were. *)
Definition only_allocates (w w' : World) : Prop :=
  (exists ds, heap w' = heap w ++ ds)
  /\ data w' = data w
  /\ patchHistory w' = patchHistory w
  /\ historyId w' = historyId w.

(** [reset()] *)
Definition reset (S : DuetSchema) : M unit :=
  set_data (getDefaults S).

(** ** The LLM bridge *)

(** [patchHistory.push({ id: String(++historyId), timestamp, patch, source, result })] *)
Definition push_history (now : Z) (p : list value) (src : Source)
    (r : EditResult) : M unit :=
  fun w =>
    let n := Datatypes.S (historyId w) in
    (Ret tt,
     mkWorld (heap w) (data w)
             (patchHistory w ++ [mkHistoryEntry (pretty n) now p src r]) n).

(** [op.path.replace(...)]: only a string has a [replace] method. *)
Definition op_path (op : value) : outcome string :=
  p ← get_prop op "path";
  match p with
  | VStr s => Ret s
  | _ => Throw (TypeError "op.path.replace is not a function")
  end.

(** What one turn of the [for (const op of patch)] loop leaves behind. *)
Inductive step_result : Type :=
| Continue (currentData : obj loc)
| Return (r : EditResult).

Section Bridge.
Variable S : DuetSchema.
Variable now : Z.
Variable p : list value.
Variable src : Source.

(** [patchHistory.push(...); return result] *)
Definition fail_with (r : EditResult) : M step_result :=
  _ ← push_history now p src r;
  mret (Return r).

(** The body of the loop of [applyPatch] for one operation. *)
Definition apply_op (op : value) (currentData : obj loc) : M step_result :=
  path ← lift (op_path op);
  let pathParts := split_slash (strip_slash path) in
  let rootField := hd "" pathParts in
  if negb (has_key rootField (fields S)) then
    fail_with (Failure ("Unknown field: " ++ rootField))
  else
    kind ← lift (get_prop op "op");
    if is_str kind "remove" then
      if (length pathParts =? 1)%nat then
        (* [rootField] passed the [in] test, so the defaults have it
           ([getDefaults_has_key]). *)
        mret (Continue
                match lookup_key rootField (getDefaults S) with
                | Some d => assign rootField d currentData
                | None => currentData
                end)
      else
        let slot := lookup_key rootField currentData in
        target ← read_slot slot;
        target' ← lift (nav_delete target (tl pathParts));
        _ ← write_slot slot target';
        mret (Continue currentData)
    else if is_str kind "replace" || is_str kind "add" then
      v ← lift (get_prop op "value");
      if (length pathParts =? 1)%nat then
        r ← lift (validate S rootField v);
        match r with
        | ParseErr m =>
            fail_with (Failure ("Invalid value for " ++ rootField ++ ": " ++ m))
        | ParseOk d =>
            l ← alloc d;
            mret (Continue (assign rootField l currentData))
        end
      else
        cur ← read_slot (lookup_key rootField currentData);
        newValue ← lift (json_clone cur);
        newValue' ← lift (nav_set newValue (tl pathParts) v);
        r ← lift (validate S rootField newValue');
        match r with
        | ParseErr m =>
            fail_with (Failure ("Invalid value for " ++ path ++ ": " ++ m))
        | ParseOk d =>
            l ← alloc d;
            mret (Continue (assign rootField l currentData))
        end
    else mret (Continue currentData).

(** [for (const op of patch) { ... }] *)
Fixpoint applyPatch_loop (ops : list value) (currentData : obj loc) : M step_result :=
  match ops with
  | [] => mret (Continue currentData)
  | op :: rest =>
      r ← apply_op op currentData;
      match r with
      | Continue currentData' => applyPatch_loop rest currentData'
      | Return res => mret (Return res)
      end
  end.

(** [applyPatch(patch, source)] *)
Definition applyPatch : M EditResult :=
  currentData ← get_data;
  r ← applyPatch_loop p currentData;
  match r with
  | Return res => mret res
  | Continue currentData' =>
      committed ← setMany S currentData';
      let res := if committed : bool
                 then Success (length p)
                 else Failure "Failed to commit changes to store" in
      _ ← push_history now p src res;
      mret res
  end.
End Bridge.

(** [try { ... } catch (e) { return { success: false, error: `JSON parse error: ${e.message}` } }] *)
Definition catch_all (body : M EditResult) : M EditResult :=
  fun w =>
    match body w with
    | (Ret r, w') => (Ret r, w')
    | (Throw e, w') => (Ret (Failure ("JSON parse error: " ++ exn_message e)), w')
    end.

Section ApplyJSON.
(** [JSON.parse]: the parsed value, or a [SyntaxError]. *)
Variable JSON_parse : string -> outcome value.

(** [applyJSON(json, source)] *)
Definition applyJSON (S : DuetSchema) (json : string) (src : Source) (now : Z)
    : M EditResult :=
  catch_all
    (parsed ← lift (JSON_parse json);
     if isArray parsed then applyPatch S now (elements parsed) src
     else
       inner ← lift (get_prop parsed "patch");
       if truthy inner && isArray inner
       then applyPatch S now (elements inner) src
       else mret (Failure "Expected JSON Patch array or { patch: [...] } format")).
End ApplyJSON.

(** A sequence of [applyPatch] calls, each with its batch, its source tag
    and the time it is made. *)
Record call : Type := mkCall {
  call_patch : list value;
  call_source : Source;
  call_time : Z
}.

Fixpoint applyPatch_all (S : DuetSchema) (calls : list call) : M (list EditResult) :=
  match calls with
  | [] => mret []
  | c :: rest =>
      r ← applyPatch S (call_time c) (call_patch c) (call_source c);
      rs ← applyPatch_all S rest;
      mret (r :: rs)
  end.

(** The entries a sequence of calls is to leave in the log, the first of
    them numbered [n + 1]. *)
Fixpoint entries_from (n : nat) (calls : list call) (rs : list EditResult)
    : list HistoryEntry :=
  match calls, rs with
  | c :: calls', r :: rs' =>
      mkHistoryEntry (pretty (Datatypes.S n)) (call_time c) (call_patch c)
                     (call_source c) r
      :: entries_from (Datatypes.S n) calls' rs'
  | _, _ => []
  end.

(** [history()] returns a copy of the log. *)
Definition history (w : World) : list HistoryEntry := patchHistory w.

(** [clearHistory()] *)
Definition clearHistory : M unit :=
  fun w => (Ret tt, mkWorld (heap w) (data w) [] 0).

(** [createDuet(name, fields)] without persistence: the store starts with
    [schema.getDefaults()], an empty log and [historyId = 0]. *)
Definition createDuet (nm : string) (fs : SchemaFields) (h : list value)
    : DuetSchema * World :=
  let S := mkDuetSchema nm fs in
  (S, mkWorld h (getDefaults S) [] 0).

(** An operation as a caller writes it: [{ op, path, value }]. *)
Definition JsonPatchOp (op path : string) (v : option value) : value :=
  VObj ([("op", VStr op); ("path", VStr path)]
        ++ match v with Some x => [("value", x)] | None => [] end).

(** ** The schemas of the repository's tests

    Zod is an external library.  These are the schemas the tests of
    [createDuet] build, with Zod's behaviour on JSON values: a wrong type or
    a violated bound is an issue, an object schema checks its own keys,
    drops the others and returns a new object.  The message texts stand for
    the ones Zod produces; no statement depends on their wording. *)
Module z.
Definition string (v : value) : parse_result :=
  match v with
  | VStr _ => ParseOk v
  | VUndef => ParseErr "Required"
  | _ => ParseErr "Expected string"
  end.

Definition string_min (n : nat) (v : value) : parse_result :=
  match v with
  | VStr s =>
      if (n <=? String.length s)%nat then ParseOk v
      else ParseErr "String must contain more characters"
  | VUndef => ParseErr "Required"
  | _ => ParseErr "Expected string"
  end.

Definition number_min_max (lo hi : Z) (v : value) : parse_result :=
  match v with
  | VNum n =>
      if (n <? lo)%Z then ParseErr "Number must be greater than or equal to the minimum"
      else if (hi <? n)%Z then ParseErr "Number must be less than or equal to the maximum"
      else ParseOk v
  | VUndef => ParseErr "Required"
  | _ => ParseErr "Expected number"
  end.

Definition boolean (v : value) : parse_result :=
  match v with
  | VBool _ => ParseOk v
  | VUndef => ParseErr "Required"
  | _ => ParseErr "Expected boolean"
  end.

Fixpoint object_members (shape : obj (value -> parse_result))
    (kvs : obj value) : obj value + String.string :=
  match shape with
  | [] => inl []
  | (k, sch) :: rest =>
      match sch (match lookup_key k kvs with Some x => x | None => VUndef end) with
      | ParseErr m => inr m
      | ParseOk d =>
          match object_members rest kvs with
          | inl out => inl ((k, d) :: out)
          | inr m => inr m
          end
      end
  end.

Definition object (shape : obj (value -> parse_result)) (v : value) : parse_result :=
  match v with
  | VObj kvs =>
      match object_members shape kvs with
      | inl out => ParseOk (VObj out)
      | inr m => ParseErr m
      end
  | VUndef => ParseErr "Required"
  | _ => ParseErr "Expected object"
  end.
End z.

(** [field(schema, label, defaultValue)] for each entry of an object literal:
    every default value is an object of its own. *)
Fixpoint define_fields (defs : obj ((value -> parse_result) * string * value))
    (h : list value) : SchemaFields * list value :=
  match defs with
  | [] => ([], h)
  | (k, (sch, lbl, d)) :: rest =>
      let '(fs, h') := define_fields rest (h ++ [d]) in
      ((k, mkFieldDef sch lbl (length h)) :: fs, h')
  end.

Definition createDuet_of (nm : string)
    (defs : obj ((value -> parse_result) * string * value)) : DuetSchema * World :=
  let '(fs, h) := define_fields defs [] in createDuet nm fs h.

(** The stores of [src/duet.test.ts]. *)
Definition TestStore : DuetSchema * World :=
  createDuet_of "TestStore"
    [("name", (z.string_min 1, "Name", VStr "default"));
     ("count", (z.number_min_max 0 100, "Count", VNum 0));
     ("active", (z.boolean, "Active", VBool false))].

Definition contact_default : value :=
  VObj [("name", VStr ""); ("email", VStr ""); ("phone", VStr "")].

Definition NestedStore : DuetSchema * World :=
  createDuet_of "NestedStore"
    [("contact",
      (z.object [("name", z.string); ("email", z.string); ("phone", z.string)],
       "Contact", contact_default))].

Definition StrictStore : DuetSchema * World :=
  createDuet_of "StrictStore"
    [("settings",
      (z.object [("count", z.number_min_max 0 10)], "Settings",
       VObj [("count", VNum 0)]))].

Definition TestSchema : DuetSchema := fst TestStore.
Definition TestWorld : World := snd TestStore.
Definition NestedSchema : DuetSchema := fst NestedStore.
Definition NestedWorld : World := snd NestedStore.

(** [JSON.parse] on the literals used in the examples of this file; any
    other text is reported as a syntax error. *)
Definition dq : string := String (ascii_of_nat 34) EmptyString.

Definition quoted (s : string) : string := dq ++ s ++ dq.

(** [[{"op":"replace","path":"/count","value":10}]] *)
Definition bare_text : string :=
  "[{" ++ quoted "op" ++ ":" ++ quoted "replace" ++ ","
       ++ quoted "path" ++ ":" ++ quoted "/count" ++ ","
       ++ quoted "value" ++ ":10}]".

(** [{"patch":[{"op":"replace","path":"/count","value":10}]}] *)
Definition wrapped_text : string :=
  "{" ++ quoted "patch" ++ ":" ++ bare_text ++ "}".

Definition sample_ops : list value :=
  [VObj [("op", VStr "replace"); ("path", VStr "/count"); ("value", VNum 10)]].

Definition sample_JSON_parse (s : string) : outcome value :=
  if String.eqb s "null" then Ret VNull
  else if String.eqb s bare_text then Ret (VArr sample_ops)
  else if String.eqb s wrapped_text then Ret (VObj [("patch", VArr sample_ops)])
  else Throw (SyntaxError "Unexpected token").

(** ** Nested writes as the specification words them

    "Walk/create intermediate object segments as needed, set the final
    segment to the value": a pure function on object trees, to be compared
    with [nav_set]. *)
Fixpoint spec_write (v : value) (segs : list string) (x : value) : value :=
  match segs with
  | [] => v
  | seg :: rest =>
      match v with
      | VObj kvs =>
          match rest with
          | [] => VObj (assign seg x kvs)
          | _ =>
              let child := match lookup_key seg kvs with
                           | Some c => c
                           | None => VObj []
                           end in
              VObj (assign seg (spec_write child rest x) kvs)
          end
      | _ => v
      end
  end.

(** The value found under a path of object keys; [undefined] when a key is
    missing. *)
Fixpoint get_path (v : value) (segs : list string) : value :=
  match segs with
  | [] => v
  | seg :: rest =>
      match v with
      | VObj kvs =>
          match lookup_key seg kvs with
          | Some c => get_path c rest
          | None => VUndef
          end
      | _ => VUndef
      end
  end.

(** The walk of a nested write meets objects only: the root is an object and
    so is every intermediate value that is already there. *)
Fixpoint objects_along (v : value) (segs : list string) : bool :=
  match v, segs with
  | VObj _, [] => true
  | VObj _, [_] => true
  | VObj kvs, seg :: rest =>
      match lookup_key seg kvs with
      | Some c => objects_along c rest
      | None => true
      end
  | _, _ => false
  end.

(** Two paths part ways at some key: neither is a prefix of the other. *)
Fixpoint diverges (q segs : list string) : bool :=
  match q, segs with
  | k :: q', s :: segs' => if String.eqb k s then diverges q' segs' else true
  | _, _ => false
  end.

(** A value without [undefined] inside: what [JSON.parse] and the schemas
    above produce. *)
Fixpoint is_json (v : value) : bool :=
  match v with
  | VUndef => false
  | VArr xs => forallb is_json xs
  | VObj kvs => forallb (fun kv => is_json (snd kv)) kvs
  | _ => true
  end.

(** [setMany({ name: 'valid', count: 999 })] on the store of the tests: the
    caller's two values are objects of their own, then the call is made. *)
Definition TestWorld_with_updates : World :=
  mkWorld (heap TestWorld ++ [VStr "valid"; VNum 999]) (data TestWorld)
          (patchHistory TestWorld) (historyId TestWorld).

Definition valid_and_invalid_updates : obj loc := [("name", 3); ("count", 4)].

(** [setMany({ bogus: 1 })] *)
Definition TestWorld_with_bogus : World :=
  mkWorld (heap TestWorld ++ [VNum 1]) (data TestWorld)
          (patchHistory TestWorld) (historyId TestWorld).

Definition bogus_updates : obj loc := [("bogus", 3)].

(** The nested write of the tests: [replace /contact/name "John"]. *)
Definition rename_contact : value :=
  JsonPatchOp "replace" "/contact/name" (Some (VStr "John")).

Definition contact_field : FieldDef :=
  mkFieldDef
    (z.object [("name", z.string); ("email", z.string); ("phone", z.string)])
    "Contact" 0.

Definition contact_john : value :=
  VObj [("name", VStr "John"); ("email", VStr ""); ("phone", VStr "")].

(** A [remove] whose path goes below the root field. *)
Definition is_nested_remove (op : value) : bool :=
  match op_path op, get_prop op "op" with
  | Ret path, Ret kind =>
      is_str kind "remove"
      && negb (length (split_slash (strip_slash path)) =? 1)%nat
  | _, _ => false
  end.

(** Induction on values, through the lists they nest. *)
Section ValueInd.
Variable P : value -> Prop.
Hypothesis P_undef : P VUndef.
Hypothesis P_null : P VNull.
Hypothesis P_bool : forall b, P (VBool b).
Hypothesis P_num : forall n, P (VNum n).
Hypothesis P_str : forall s, P (VStr s).
Hypothesis P_arr : forall xs, Forall P xs -> P (VArr xs).
Hypothesis P_obj : forall kvs, Forall (fun kv => P (snd kv)) kvs -> P (VObj kvs).

Fixpoint value_ind_nested (v : value) : P v :=
  match v with
  | VUndef => P_undef
  | VNull => P_null
  | VBool b => P_bool b
  | VNum n => P_num n
  | VStr s => P_str s
  | VArr xs =>
      P_arr xs
        ((fix all (l : list value) : Forall P l :=
            match l with
            | [] => @List.Forall_nil _ P
            | x :: r => @List.Forall_cons _ P x r (value_ind_nested x) (all r)
            end) xs)
  | VObj kvs =>
      P_obj kvs
        ((fix all (l : list (string * value)) : Forall (fun kv => P (snd kv)) l :=
            match l with
            | [] => @List.Forall_nil _ _
            | kv :: r =>
                @List.Forall_cons _ (fun kv => P (snd kv)) kv r
                                  (value_ind_nested (snd kv)) (all r)
            end) kvs)
  end.
End ValueInd.

(** Batches used in the concrete runs below. *)
Definition remove_name_then_unknown : list value :=
  [JsonPatchOp "remove" "/contact/name" None;
   JsonPatchOp "replace" "/nope" (Some (VNum 1))].

Definition remove_under_absent : list value :=
  [JsonPatchOp "remove" "/contact/a/b" None].

Definition replace_under_number : list value :=
  [JsonPatchOp "replace" "/count/a/b" (Some (VNum 1))].

Definition remove_street_then_rename : list value :=
  [JsonPatchOp "remove" "/contact/address/street" None;
   JsonPatchOp "replace" "/contact/name" (Some (VStr "John"))].

Definition remove_name : list value :=
  [JsonPatchOp "remove" "/contact/name" None].

(** Unfolds the monadic plumbing of the engine in the goal and hypotheses. *)
Ltac unfold_M :=
  unfold fail_with, push_history, alloc, write_slot, read_slot, get_data,
    set_data, lift, mbind, M_bind, mret, M_ret in *.


(** ** More of [DuetSchema] *)

(** [getFieldIds()] *)
Definition getFieldIds (S : DuetSchema) : list string := map fst (fields S).

(** [getField(fieldId)] *)
Definition getField (S : DuetSchema) (fieldId : string) : option FieldDef :=
  lookup_key fieldId (fields S).

(** [message || 'Invalid value'] *)
Definition message_or_invalid (m : string) : string :=
  if String.eqb m "" then "Invalid value" else m.

(** The loop of [validateAll]. *)
Fixpoint validateAll_loop (S : DuetSchema) (h : list value)
    (entries : list (string * loc)) (errors : obj string) : obj string :=
  match entries with
  | [] => errors
  | (key, l) :: rest =>
      match lookup_key key (fields S) with
      | Some fd =>
          match schema fd (deref h l) with
          | ParseErr m =>
              validateAll_loop S h rest (assign key (message_or_invalid m) errors)
          | ParseOk _ => validateAll_loop S h rest errors
          end
      | None => validateAll_loop S h rest errors
      end
  end.

(** [validateAll(data)]: [{ success, errors }] *)
Definition validateAll (S : DuetSchema) (h : list value) (d : obj loc)
    : bool * obj string :=
  let errors := validateAll_loop S h d [] in
  ((length errors =? 0)%nat, errors).

(** ** The stand-alone bridge of [src/llm.ts] ([createLLMBridge])

    It works on top-level fields only: the batch is collected in a fresh
    [updates] record and handed to the store's [setMany], whose answer is
    not looked at. *)
Module createLLMBridge.
Section Bridge.
Variable S : DuetSchema.
Variable now : Z.
Variable p : list value.
Variable src : Source.

(** The body of the loop of [applyPatch] for one operation. *)
Definition apply_op (op : value) (updates : obj loc) : M step_result :=
  path ← lift (op_path op);
  let fieldName := hd "" (split_slash (strip_slash path)) in
  if negb (has_key fieldName (fields S)) then
    fail_with now p src (Failure ("Unknown field: " ++ fieldName))
  else
    kind ← lift (get_prop op "op");
    if is_str kind "remove" then
      mret (Continue
              match lookup_key fieldName (getDefaults S) with
              | Some d => assign fieldName d updates
              | None => updates
              end)
    else if is_str kind "replace" || is_str kind "add" then
      v ← lift (get_prop op "value");
      r ← lift (validate S fieldName v);
      match r with
      | ParseErr m =>
          fail_with now p src
            (Failure ("Invalid value for " ++ fieldName ++ ": " ++ m))
      | ParseOk d =>
          l ← alloc d;
          mret (Continue (assign fieldName l updates))
      end
    else mret (Continue updates).

Fixpoint applyPatch_loop (ops : list value) (updates : obj loc) : M step_result :=
  match ops with
  | [] => mret (Continue updates)
  | op :: rest =>
      r ← apply_op op updates;
      match r with
      | Continue updates' => applyPatch_loop rest updates'
      | Return res => mret (Return res)
      end
  end.

(** [applyPatch(patch, source)] *)
Definition applyPatch : M EditResult :=
  r ← applyPatch_loop p [];
  match r with
  | Return res => mret res
  | Continue updates =>
      _ ← setMany S updates;
      let res := Success (length p) in
      _ ← push_history now p src res;
      mret res
  end.
End Bridge.
End createLLMBridge.

(** ** The drop-in bridge of [src/attach.ts] ([attachLLM])

    The store is any Zustand store whose state is the record itself (the
    [data] of the world), the schema is the shape of a Zod object.  Zustand's
    [setState(partial)] merges the partial record into the state. *)
Module attachLLM.
Section Bridge.
Variable shape : obj (value -> parse_result).
Variable now : Z.
Variable p : list value.
Variable src : Source.

(** [Object.keys(shape)] *)
Definition fieldIds : list string := map fst shape.

(** [fieldIds.includes(fieldName)] *)
Definition includes (ids : list string) (fieldName : string) : bool :=
  existsb (String.eqb fieldName) ids.

(** [validateField(field, value)] *)
Definition validateField (field : string) (v : value) : value + string :=
  match lookup_key field shape with
  | None => inr ("Unknown field: " ++ field)%string
  | Some fieldSchema =>
      match fieldSchema v with
      | ParseErr m => inr (message_or_invalid m)
      | ParseOk d => inl d
      end
  end.

(** [updates[fieldName] = getDefaultValue(fieldName)]: the "default" is the
    value the store holds now; a field the state lacks reads [undefined]. *)
Definition assign_current (fieldName : string) (updates : obj loc) : M (obj loc) :=
  cur ← get_data;
  match lookup_key fieldName cur with
  | Some l => mret (assign fieldName l updates)
  | None => l ← alloc VUndef; mret (assign fieldName l updates)
  end.

(** The body of the loop of [applyPatch] for one operation. *)
Definition apply_op (op : value) (updates : obj loc) : M step_result :=
  path ← lift (op_path op);
  let fieldName := hd "" (split_slash (strip_slash path)) in
  if negb (includes fieldIds fieldName) then
    fail_with now p src (Failure ("Unknown field: " ++ fieldName))
  else
    kind ← lift (get_prop op "op");
    if is_str kind "remove" then
      updates' ← assign_current fieldName updates;
      mret (Continue updates')
    else if is_str kind "replace" || is_str kind "add" then
      v ← lift (get_prop op "value");
      match validateField fieldName v with
      | inr e =>
          fail_with now p src
            (Failure ("Invalid value for " ++ fieldName ++ ": " ++ e))
      | inl d =>
          l ← alloc d;
          mret (Continue (assign fieldName l updates))
      end
    else mret (Continue updates).

Fixpoint applyPatch_loop (ops : list value) (updates : obj loc) : M step_result :=
  match ops with
  | [] => mret (Continue updates)
  | op :: rest =>
      r ← apply_op op updates;
      match r with
      | Continue updates' => applyPatch_loop rest updates'
      | Return res => mret (Return res)
      end
  end.

(** [store.setState(updates)] *)
Definition setState (updates : obj loc) : M unit :=
  cur ← get_data;
  set_data (spread cur updates).

(** [applyPatch(patch, source)] *)
Definition applyPatch : M EditResult :=
  r ← applyPatch_loop p [];
  match r with
  | Return res => mret res
  | Continue updates =>
      _ ← setState updates;
      let res := Success (length p) in
      _ ← push_history now p src res;
      mret res
  end.
End Bridge.
End attachLLM.

(** The store and schema of [src/attach.test.ts]: the state starts as
    [{ title: '', priority: 1, done: false }]. *)
Definition TaskShape : obj (value -> parse_result) :=
  [("title", z.string_min 1); ("priority", z.number_min_max 1 5); ("done", z.boolean)].

Definition TaskWorld : World :=
  mkWorld [VStr ""; VNum 1; VBool false]
          [("title", 0); ("priority", 1); ("done", 2)] [] 0.

(** The form of the README: [name] must not be empty, and its default is
    the empty string. *)
Definition ContactForm : DuetSchema * World :=
  createDuet_of "ContactForm"
    [("name", (z.string_min 1, "Full Name", VStr ""));
     ("company", (z.string, "Company", VStr ""))].


(** The string has a [/] in it. *)
Fixpoint has_slash (s : string) : bool :=
  match s with
  | EmptyString => false
  | String c rest => Ascii.eqb c "/"%char || has_slash rest
  end.

(** [JSON.parse] on a few more literals:
    [[{"op":"remove","path":"/contact/a/b"}]], [42] and [not json]. *)
Definition remove_text : string :=
  "[{" ++ quoted "op" ++ ":" ++ quoted "remove" ++ ","
       ++ quoted "path" ++ ":" ++ quoted "/contact/a/b" ++ "}]".

Definition sample_JSON_parse_more (s : string) : outcome value :=
  if String.eqb s remove_text then Ret (VArr remove_under_absent)
  else if String.eqb s "42" then Ret (VNum 42)
  else sample_JSON_parse s.

(** ** Names that every object inherits

    JavaScript's [in] and property reads follow the prototype chain: the
    members of [Object.prototype] are found on every object literal and on
    every object that [JSON.parse] builds.  The engine above reads [in] and
    [target[key]] on own keys; the two readings agree on every name that is
    not in this list, so statements about arbitrary keys carry that as a
    hypothesis. *)
Definition Object_prototype_names : list string :=
  ["constructor"; "__proto__"; "hasOwnProperty"; "isPrototypeOf";
   "propertyIsEnumerable"; "toLocaleString"; "toString"; "valueOf";
   "__defineGetter__"; "__defineSetter__"; "__lookupGetter__";
   "__lookupSetter__"].

Definition inherited_name (k : string) : bool :=
  existsb (String.eqb k) Object_prototype_names.

(** [k in o] for an object literal [o], prototype chain included. *)
Definition js_in {A} (k : string) (o : obj A) : bool :=
  has_key k o || inherited_name k.

(** No key of the record is an inherited name. *)
Definition ordinary_keys {A} (o : obj A) : bool :=
  forallb (fun kv => negb (inherited_name (fst kv))) o.

(** The operation is an object with a string path whose root segment is not
    an inherited name. *)
Definition ordinary_root (op : value) : bool :=
  match op_path op with
  | Ret path => negb (inherited_name (hd "" (split_slash (strip_slash path))))
  | Throw _ => false
  end.

(** A path segment that is neither an inherited name nor an array index. *)
Definition ordinary_segment (s : string) : bool :=
  negb (inherited_name s)
  && match parse_index s with Some _ => false | None => true end.

(** A nested [replace] below a field that holds a string. *)
Definition replace_under_string : list value :=
  [JsonPatchOp "replace" "/name/a/b" (Some (VStr "x"))].
(** * Theorems *)

(** ** Reasoning about the engine monad *)

Lemma bind_M_inv {A B} (c : M A) (k : A -> M B) (w w' : World) (r : outcome B) :
  (c ≫= k) w = (r, w') ->
  (exists a w1, c w = (Ret a, w1) /\ k a w1 = (r, w'))
  \/ (exists e, c w = (Throw e, w') /\ r = Throw e).
Proof.
  unfold mbind, M_bind. destruct (c w) as [[a|e] w1] eqn:E; intros H.
  - left. eauto.
  - right. inversion H; subst. eauto.
Qed.

Lemma bind_M_ret {A B} (c : M A) (k : A -> M B) (w w1 : World) (a : A) :
  c w = (Ret a, w1) -> (c ≫= k) w = k a w1.
Proof. unfold mbind, M_bind. intros ->. reflexivity. Qed.

Lemma bind_M_throw {A B} (c : M A) (k : A -> M B) (w w1 : World) (e : exn) :
  c w = (Throw e, w1) -> (c ≫= k) w = (Throw e, w1).
Proof. unfold mbind, M_bind. intros ->. reflexivity. Qed.

Lemma lift_run {A} (c : outcome A) (w : World) : lift c w = (c, w).
Proof. reflexivity. Qed.

(** ** The tests of the repository, replayed on the model *)

(** [set('name', 'updated')] returns [true] and updates the field. *)
Example test_set_updates_valid_value :
  exists w',
    set TestSchema "name" (VStr "updated") TestWorld = (Ret true, w')
    /\ lookup_key "name" (snapshot w') = Some (VStr "updated").
Proof. eexists. split; [vm_compute; reflexivity|reflexivity]. Qed.

(** [set('count', 999)] returns [false] and leaves the value. *)
Example test_set_rejects_invalid_value :
  set TestSchema "count" (VNum 999) TestWorld = (Ret false, TestWorld).
Proof. reflexivity. Qed.

(** A single [replace] is applied and counted. *)
Example test_apply_single_replace :
  exists w',
    applyPatch TestSchema 0 [JsonPatchOp "replace" "/name" (Some (VStr "test"))]
               llm TestWorld = (Ret (Success 1), w')
    /\ lookup_key "name" (snapshot w') = Some (VStr "test").
Proof. eexists. split; [vm_compute; reflexivity|reflexivity]. Qed.

(** An unknown field is rejected. *)
Example test_rejects_unknown_field :
  exists w',
    applyPatch TestSchema 0 [JsonPatchOp "replace" "/unknown" (Some (VStr "x"))]
               llm TestWorld = (Ret (Failure "Unknown field: unknown"), w')
    /\ snapshot w' = snapshot TestWorld.
Proof. eexists. split; [vm_compute; reflexivity|reflexivity]. Qed.

(** No partial application when the second operation is invalid. *)
Example test_does_not_partially_apply :
  exists m w',
    applyPatch TestSchema 0
      [JsonPatchOp "replace" "/name" (Some (VStr "new"));
       JsonPatchOp "replace" "/count" (Some (VNum 999))] llm TestWorld
    = (Ret (Failure m), w')
    /\ snapshot w' = snapshot TestWorld.
Proof. do 2 eexists. split; [vm_compute; reflexivity|reflexivity]. Qed.

(** A nested path is applied, its siblings are kept. *)
Example test_applies_nested_path :
  exists w',
    applyPatch NestedSchema 0 [rename_contact] llm NestedWorld = (Ret (Success 1), w')
    /\ snapshot w' = [("contact", contact_john)].
Proof. eexists. split; [vm_compute; reflexivity|reflexivity]. Qed.

(** A nested value is validated against the whole schema of the field. *)
Example test_validates_nested_value :
  exists m w',
    applyPatch (fst StrictStore) 0
      [JsonPatchOp "replace" "/settings/count" (Some (VNum 999))] llm (snd StrictStore)
    = (Ret (Failure m), w')
    /\ snapshot w' = snapshot (snd StrictStore).
Proof. do 2 eexists. split; [vm_compute; reflexivity|reflexivity]. Qed.

(** A [remove] of a whole field puts its default back. *)
Example test_remove_resets_field :
  exists w1 w2,
    applyPatch TestSchema 0 [JsonPatchOp "replace" "/count" (Some (VNum 50))]
               llm TestWorld = (Ret (Success 1), w1)
    /\ lookup_key "count" (snapshot w1) = Some (VNum 50)
    /\ applyPatch TestSchema 1 [JsonPatchOp "remove" "/count" None] llm w1
       = (Ret (Success 1), w2)
    /\ snapshot w2 = snapshot TestWorld.
Proof.
  do 2 eexists. split; [vm_compute; reflexivity|]. split; [reflexivity|].
  split; [vm_compute; reflexivity|reflexivity].
Qed.

(** ** Concrete runs: where the engine departs from its contract *)

(** C1: batch atomicity fails.  On the nested store of the tests, the batch
    [remove /contact/name; replace /nope 1] is rejected with
    [Unknown field: nope], yet the live snapshot has lost [contact.name]:
    the nested [remove] deleted the key in the live object, which the
    working copy shares. *)
Theorem C1_rejected_batch_leaks_nested_remove :
  exists w',
    applyPatch NestedSchema 0 remove_name_then_unknown llm NestedWorld
      = (Ret (Failure "Unknown field: nope"), w')
    /\ snapshot NestedWorld = [("contact", contact_default)]
    /\ snapshot w' = [("contact", VObj [("email", VStr ""); ("phone", VStr "")])].
Proof.
  eexists. split; [vm_compute; reflexivity|]. split; reflexivity.
Qed.

(** C2: [applyPatch] is not total.  A nested [remove] below an absent
    segment, and a nested [replace] below a field whose value is a number,
    both leave [applyPatch] with a thrown [TypeError] instead of a result. *)
Theorem C2_applyPatch_throws :
  (exists e, applyPatch NestedSchema 0 remove_under_absent llm NestedWorld
             = (Throw (TypeError e), NestedWorld))
  /\ (exists e, applyPatch TestSchema 0 replace_under_number llm TestWorld
                = (Throw (TypeError e), TestWorld)).
Proof.
  split; eexists; vm_compute; reflexivity.
Qed.

(** C3: a nested [remove] is not tolerant of an absent intermediate segment.
    [remove /contact/address/street] on a contact without [address] throws;
    the batch does not continue, so the [replace] after it is never run. *)
Theorem C3_remove_below_absent_segment_faults :
  exists e w',
    applyPatch NestedSchema 0 remove_street_then_rename llm NestedWorld
      = (Throw (TypeError e), w')
    /\ get_path contact_default ["address"] = VUndef
    /\ snapshot w' = [("contact", contact_default)].
Proof.
  do 2 eexists. split; [vm_compute; reflexivity|]. split; reflexivity.
Qed.

(** C5: [reset()] does not restore the constructed state after a nested
    [remove].  The store starts with the registered default object itself;
    [remove /contact/name] deletes the key in that object, and [reset()]
    installs the same, now smaller, object again. *)
Theorem C5_reset_after_nested_remove :
  exists r w1 w2,
    applyPatch NestedSchema 0 remove_name llm NestedWorld = (Ret r, w1)
    /\ reset NestedSchema w1 = (Ret tt, w2)
    /\ snapshot NestedWorld = [("contact", contact_default)]
    /\ snapshot w2 = [("contact", VObj [("email", VStr ""); ("phone", VStr "")])].
Proof.
  do 3 eexists. split; [vm_compute; reflexivity|].
  split; [vm_compute; reflexivity|]. split; reflexivity.
Qed.

(** C7: a call of [applyPatch] that throws appends no history entry and
    leaves the counter alone: after this one call the log is still empty. *)
Theorem C7_throwing_call_is_not_logged :
  exists e w',
    applyPatch NestedSchema 0 remove_under_absent user NestedWorld = (Throw e, w')
    /\ history NestedWorld = []
    /\ history w' = []
    /\ historyId w' = 0%nat.
Proof.
  do 2 eexists. split; [vm_compute; reflexivity|]. repeat split.
Qed.

(** C8: the text [null] is valid JSON and is neither an array nor an object
    with a [patch] array, but [applyJSON] reports it as a parse error: reading
    [parsed.patch] throws, and the [catch] labels whatever is thrown as
    [JSON parse error: ...].  The format message is not given. *)
Theorem C8_null_is_reported_as_parse_error
    (JSON_parse : string -> outcome value) (S : DuetSchema) (src : Source)
    (now : Z) (w : World) :
  JSON_parse "null" = Ret VNull ->
  exists msg,
    applyJSON JSON_parse S "null" src now w
    = (Ret (Failure ("JSON parse error: " ++ msg)), w)
    /\ Failure ("JSON parse error: " ++ msg)
       <> Failure "Expected JSON Patch array or { patch: [...] } format".
Proof.
  intros Hp. eexists. split.
  - unfold applyJSON, catch_all.
    rewrite (bind_M_ret _ _ w w VNull) by (rewrite lift_run, Hp; reflexivity).
    reflexivity.
  - discriminate.
Qed.

(** The same on the store of the tests. *)
Lemma C8_null_witness :
  sample_JSON_parse "null" = Ret VNull
  /\ exists msg,
       applyJSON sample_JSON_parse TestSchema "null" llm 0 TestWorld
       = (Ret (Failure ("JSON parse error: " ++ msg)), TestWorld).
Proof.
  split; [reflexivity|].
  destruct (C8_null_is_reported_as_parse_error sample_JSON_parse TestSchema
              llm 0 TestWorld) as (msg & Hrun & _); [reflexivity|].
  exists msg. exact Hrun.
Defined.

(** ** Input formats *)

(** C9: the bare array and the wrapped object are equivalent.  When
    [JSON.parse] reads one text as the array [ops] and the other as
    [{ patch: ops }], [applyJSON] gives the same result for both and leaves
    the same store and the same log. *)
Theorem C9_wrapped_equals_bare
    (JSON_parse : string -> outcome value) (S : DuetSchema)
    (bare wrapped : string) (ops : list value) (src : Source) (now : Z)
    (w : World) :
  JSON_parse bare = Ret (VArr ops) ->
  JSON_parse wrapped = Ret (VObj [("patch", VArr ops)]) ->
  applyJSON JSON_parse S bare src now w
    = applyJSON JSON_parse S wrapped src now w.
Proof.
  intros Hb Hw. unfold applyJSON, catch_all.
  rewrite (bind_M_ret _ _ w w (VArr ops)) by (rewrite lift_run, Hb; reflexivity).
  rewrite (bind_M_ret _ _ w w (VObj [("patch", VArr ops)]))
    by (rewrite lift_run, Hw; reflexivity).
  reflexivity.
Qed.

(** The two texts of the tests, on the store of the tests. *)
Lemma C9_wrapped_equals_bare_witness :
  sample_JSON_parse bare_text = Ret (VArr sample_ops)
  /\ sample_JSON_parse wrapped_text = Ret (VObj [("patch", VArr sample_ops)])
  /\ applyJSON sample_JSON_parse TestSchema bare_text llm 0 TestWorld
     = applyJSON sample_JSON_parse TestSchema wrapped_text llm 0 TestWorld.
Proof.
  split; [reflexivity|]. split; [reflexivity|].
  apply (C9_wrapped_equals_bare sample_JSON_parse TestSchema bare_text
           wrapped_text sample_ops llm 0 TestWorld); reflexivity.
Defined.

(** ** The loop of [applyPatch] *)

(** The loop only ever returns early with a failure. *)
Lemma apply_op_return_is_failure S now p src op cand w r w' :
  apply_op S now p src op cand w = (Ret (Return r), w') ->
  exists m, r = Failure m.
Proof.
  unfold apply_op. unfold_M. intros H.
  repeat (case_match; simplify_eq; eauto).
Qed.

Lemma applyPatch_loop_return_is_failure S now p src ops :
  forall cand w r w',
    applyPatch_loop S now p src ops cand w = (Ret (Return r), w') ->
    exists m, r = Failure m.
Proof.
  induction ops as [|op rest IH]; intros cand w r w' H; simpl in H.
  - discriminate.
  - apply bind_M_inv in H as [(a & w1 & Hop & Hk)|(e & _ & ?)]; [|discriminate].
    destruct a as [cand'|res].
    + eauto.
    + inversion Hk; subst. eapply apply_op_return_is_failure; eauto.
Qed.

(** A successful batch reports the length of the whole batch. *)
Lemma applyPatch_success_counts_all S now p src w n w' :
  applyPatch S now p src w = (Ret (Success n), w') -> n = length p.
Proof.
  unfold applyPatch. intros H.
  apply bind_M_inv in H as [(cand & w1 & _ & H)|(e & _ & ?)]; [|discriminate].
  apply bind_M_inv in H as [(a & w2 & Hloop & H)|(e & _ & ?)]; [|discriminate].
  destruct a as [cand'|res].
  - apply bind_M_inv in H as [(c & w3 & _ & H)|(e & _ & ?)]; [|discriminate].
    apply bind_M_inv in H as [(u & w4 & _ & H)|(e & _ & ?)]; [|discriminate].
    destruct c; inversion H; reflexivity.
  - apply applyPatch_loop_return_is_failure in Hloop as [m ->].
    inversion H.
Qed.

(** C10: an operation whose [op] is none of [remove], [replace], [add] and
    whose root segment is a registered field is skipped: the loop goes on
    with the same working copy and the same store, as if the operation were
    not there.  A successful batch still reports [applied] as the length of
    the whole batch. *)
Theorem C10_other_op_is_skipped_but_counted
    (S : DuetSchema) (now : Z) (p : list value) (src : Source)
    (op : value) (path : string) (kind : value) (cand : obj loc) (w : World) :
  op_path op = Ret path ->
  has_key (hd "" (split_slash (strip_slash path))) (fields S) = true ->
  get_prop op "op" = Ret kind ->
  is_str kind "remove" = false ->
  is_str kind "replace" = false ->
  is_str kind "add" = false ->
  apply_op S now p src op cand w = (Ret (Continue cand), w)
  /\ (forall rest,
        applyPatch_loop S now p src (op :: rest) cand w
        = applyPatch_loop S now p src rest cand w)
  /\ (forall w0 n w',
        applyPatch S now p src w0 = (Ret (Success n), w') -> n = length p).
Proof.
  intros Hpath Hroot Hkind Hrm Hrp Hadd.
  assert (Hstep : apply_op S now p src op cand w = (Ret (Continue cand), w)).
  { unfold apply_op. unfold_M. rewrite Hpath, Hroot, Hkind, Hrm, Hrp, Hadd.
    reflexivity. }
  split; [exact Hstep|]. split.
  - intros rest. simpl. rewrite (bind_M_ret _ _ _ _ _ Hstep). reflexivity.
  - intros w0 n w'. apply applyPatch_success_counts_all.
Qed.

(** A batch with the single operation [move /count] succeeds with
    [applied = 1] and changes nothing. *)
Lemma C10_other_op_witness :
  apply_op TestSchema 0 [JsonPatchOp "move" "/count" (Some (VNum 999))] llm
           (JsonPatchOp "move" "/count" (Some (VNum 999)))
           (data TestWorld) TestWorld
    = (Ret (Continue (data TestWorld)), TestWorld)
  /\ exists w',
       applyPatch TestSchema 0 [JsonPatchOp "move" "/count" (Some (VNum 999))] llm TestWorld
       = (Ret (Success 1), w')
       /\ snapshot w' = snapshot TestWorld.
Proof.
  split.
  - apply (C10_other_op_is_skipped_but_counted TestSchema 0
             [JsonPatchOp "move" "/count" (Some (VNum 999))] llm
             (JsonPatchOp "move" "/count" (Some (VNum 999))) "/count"
             (VStr "move") (data TestWorld) TestWorld); reflexivity.
  - eexists. split; [vm_compute; reflexivity | reflexivity].
Defined.

(** ** Records as association lists *)

Section ObjFacts.
Context {A : Type}.
Implicit Types (o : obj A) (k : string).

Lemma lookup_key_cons k k0 (v : A) o :
  lookup_key k ((k0, v) :: o)
  = if String.eqb k k0 then Some v else lookup_key k o.
Proof. reflexivity. Qed.

Lemma lookup_key_assign k k' (v : A) o :
  lookup_key k (assign k' v o)
  = if String.eqb k k' then Some v else lookup_key k o.
Proof.
  induction o as [|[k0 v0] o IH]; simpl.
  - destruct (String.eqb k k'); reflexivity.
  - destruct (String.eqb_spec k' k0) as [->|Hne]; simpl.
    + destruct (String.eqb k k0); reflexivity.
    + rewrite IH. destruct (String.eqb_spec k k0) as [->|Hne'].
      * destruct (String.eqb_spec k0 k') as [->|_]; [contradiction|reflexivity].
      * reflexivity.
Qed.

Lemma lookup_key_assign_eq k (v : A) o : lookup_key k (assign k v o) = Some v.
Proof. rewrite lookup_key_assign, String.eqb_refl. reflexivity. Qed.

Lemma lookup_key_assign_ne k k' (v : A) o :
  k <> k' -> lookup_key k (assign k' v o) = lookup_key k o.
Proof.
  intros Hne. rewrite lookup_key_assign.
  destruct (String.eqb_spec k k'); [contradiction|reflexivity].
Qed.

Lemma lookup_key_None k o : lookup_key k o = None <-> ~ In k (map fst o).
Proof.
  induction o as [|[k0 v0] o IH]; simpl.
  - tauto.
  - destruct (String.eqb_spec k k0) as [->|Hne].
    + split; [discriminate|]. intros H. exfalso. apply H. left. reflexivity.
    + rewrite IH. split.
      * intros H [Heq|Hin]; [congruence|contradiction].
      * intros H Hin. apply H. right. exact Hin.
Qed.

Lemma keys_assign k (v : A) o :
  forall x, In x (map fst (assign k v o)) <-> x = k \/ In x (map fst o).
Proof.
  induction o as [|[k0 v0] o IH]; simpl; intros x.
  - split; [intros [->|[]]; auto | intros [->|[]]; auto].
  - destruct (String.eqb_spec k k0) as [->|Hne]; simpl.
    + split; [intros [->|H]; auto | intros [->|[->|H]]; auto].
    + rewrite IH. split; [intros [->|[->|H]]; auto | intros [->|[->|H]]; auto].
Qed.

Lemma NoDup_keys_assign k (v : A) o :
  List.NoDup (map fst o) -> List.NoDup (map fst (assign k v o)).
Proof.
  induction o as [|[k0 v0] o IH]; simpl; intros Hnd.
  - constructor; [intros []|constructor].
  - inversion Hnd as [|? ? Hnotin Hnd']; subst.
    destruct (String.eqb_spec k k0) as [->|Hne]; simpl.
    + constructor; assumption.
    + constructor; [|apply IH; assumption].
      rewrite keys_assign. intros [Heq|Hin]; [congruence|contradiction].
Qed.

(** [{ ...a, ...b }[k]] is [b[k]] when [b] has the key, else [a[k]]. *)
Lemma lookup_key_spread k (a b : obj A) :
  List.NoDup (map fst b) ->
  lookup_key k (spread a b)
  = match lookup_key k b with Some v => Some v | None => lookup_key k a end.
Proof.
  unfold spread. revert a.
  induction b as [|[k0 v0] b IH]; simpl; intros a Hnd; [reflexivity|].
  inversion Hnd as [|? ? Hnotin Hnd']; subst.
  rewrite IH by assumption. rewrite lookup_key_assign.
  destruct (String.eqb_spec k k0) as [->|Hne].
  - apply lookup_key_None in Hnotin. rewrite Hnotin. reflexivity.
  - reflexivity.
Qed.
End ObjFacts.

(** ** Heap cells *)

Lemma deref_app_l (h h' : list value) (l : loc) :
  l < length h -> deref (h ++ h') l = deref h l.
Proof. intros Hl. unfold deref. rewrite lookup_app_l by exact Hl. reflexivity. Qed.

Lemma deref_app_new (h : list value) (v : value) :
  deref (h ++ [v]) (length h) = v.
Proof.
  unfold deref. rewrite lookup_app_r by lia.
  replace (length h - length h) with 0 by lia. reflexivity.
Qed.

Lemma lookup_key_view (h : list value) (o : obj loc) (k : string) :
  lookup_key k (view h o)
  = match lookup_key k o with Some l => Some (deref h l) | None => None end.
Proof.
  induction o as [|[k0 l0] o IH]; simpl; [reflexivity|].
  destruct (String.eqb k k0); [reflexivity|exact IH].
Qed.

Lemma view_app (h h' : list value) (o : obj loc) :
  valid_locs h o -> view (h ++ h') o = view h o.
Proof.
  unfold valid_locs, view. induction 1 as [|[k l] o Hl _ IH]; simpl.
  - reflexivity.
  - simpl in Hl. rewrite deref_app_l by exact Hl. rewrite IH. reflexivity.
Qed.

Lemma valid_locs_app (h h' : list value) (o : obj loc) :
  valid_locs h o -> valid_locs (h ++ h') o.
Proof.
  unfold valid_locs. intros H. eapply Forall_impl; [exact H|].
  intros [k l] Hl. simpl in *. rewrite length_app. lia.
Qed.

Lemma valid_locs_lookup (h : list value) (o : obj loc) (k : string) (l : loc) :
  valid_locs h o -> lookup_key k o = Some l -> l < length h.
Proof.
  unfold valid_locs. induction 1 as [|[k0 l0] o Hl _ IH]; simpl; [discriminate|].
  destruct (String.eqb k k0); [intros [= <-]; exact Hl | exact IH].
Qed.

Lemma valid_locs_assign (h : list value) (o : obj loc) (k : string) (l : loc) :
  valid_locs h o -> l < length h -> valid_locs h (assign k l o).
Proof.
  unfold valid_locs. intros Ho Hl.
  induction Ho as [|[k0 l0] o Hl0 Ho IH]; simpl.
  - constructor; [exact Hl|constructor].
  - destruct (String.eqb k k0); constructor; assumption.
Qed.

Lemma entry_ok_app (S : DuetSchema) (h h' : list value) (entries : obj loc) :
  valid_locs h entries ->
  forallb (entry_ok S (h ++ h')) entries = forallb (entry_ok S h) entries.
Proof.
  unfold valid_locs. induction 1 as [|[k l] o Hl _ IH]; simpl; [reflexivity|].
  simpl in Hl. rewrite IH. unfold entry_ok at 1 3. simpl.
  rewrite deref_app_l by exact Hl. reflexivity.
Qed.

(** ** [setMany] *)

Lemma only_allocates_refl (w : World) : only_allocates w w.
Proof.
  unfold only_allocates. repeat split. exists []. rewrite app_nil_r. reflexivity.
Qed.

Lemma only_allocates_trans (w1 w2 w3 : World) :
  only_allocates w1 w2 -> only_allocates w2 w3 -> only_allocates w1 w3.
Proof.
  intros ([d1 H1] & D1 & P1 & I1) ([d2 H2] & D2 & P2 & I2).
  unfold only_allocates. repeat split; try congruence.
  exists (d1 ++ d2). rewrite H2, H1, app_assoc. reflexivity.
Qed.

Lemma only_allocates_alloc (w : World) (v : value) :
  only_allocates w (snd (alloc v w)).
Proof. unfold only_allocates, alloc. simpl. repeat split. eauto. Qed.

Lemma only_allocates_snapshot (w w' : World) :
  valid_locs (heap w) (data w) -> only_allocates w w' -> snapshot w' = snapshot w.
Proof.
  intros Hv ([ds Hh] & Hd & _). unfold snapshot. rewrite Hd, Hh.
  apply view_app. exact Hv.
Qed.

Lemma only_allocates_valid (w w' : World) (o : obj loc) :
  only_allocates w w' -> valid_locs (heap w) o -> valid_locs (heap w') o.
Proof. intros ([ds Hh] & _) Hv. rewrite Hh. apply valid_locs_app. exact Hv. Qed.

Lemma setMany_loop_cons (S : DuetSchema) (key : string) (l : loc)
    (rest validated : obj loc) (w : World) :
  setMany_loop S ((key, l) :: rest) validated w
  = match lookup_key key (fields S) with
    | Some fd =>
        match schema fd (deref (heap w) l) with
        | ParseOk d =>
            setMany_loop S rest (assign key (length (heap w)) validated)
              (mkWorld (heap w ++ [d]) (data w) (patchHistory w) (historyId w))
        | ParseErr _ => (Ret None, w)
        end
    | None => setMany_loop S rest validated w
    end.
Proof.
  simpl. unfold has_key, validate.
  destruct (lookup_key key (fields S)) as [fd|]; [|reflexivity].
  unfold_M. simpl. destruct (schema fd (deref (heap w) l)); reflexivity.
Qed.

(** The loop of [setMany], entry by entry. *)
Lemma setMany_loop_spec (S : DuetSchema) (entries : obj loc) :
  forall (validated : obj loc) (w : World),
    valid_locs (heap w) entries ->
    valid_locs (heap w) validated ->
    List.NoDup (map fst entries) ->
    List.NoDup (map fst validated) ->
    exists w',
      only_allocates w w'
      /\ if forallb (entry_ok S (heap w)) entries then
           exists validated',
             setMany_loop S entries validated w = (Ret (Some validated'), w')
             /\ valid_locs (heap w') validated'
             /\ List.NoDup (map fst validated')
             /\ forall k,
                  lookup_key k (view (heap w') validated')
                  = match lookup_key k entries, lookup_key k (fields S) with
                    | Some l, Some fd =>
                        match schema fd (deref (heap w) l) with
                        | ParseOk d => Some d
                        | ParseErr _ => None
                        end
                    | _, _ => lookup_key k (view (heap w) validated)
                    end
         else setMany_loop S entries validated w = (Ret None, w').
Proof.
  induction entries as [|[key l] rest IH]; intros validated w Hve Hvv Hnde Hndv.
  - exists w. split; [apply only_allocates_refl|]. simpl.
    exists validated. repeat split; auto.
  - inversion Hve as [|? ? Hl Hve']; subst. simpl in Hl.
    inversion Hnde as [|? ? Hnotin Hnde']; subst.
    apply lookup_key_None in Hnotin.
    simpl forallb. unfold entry_ok at 1. simpl fst; simpl snd.
    rewrite setMany_loop_cons.
    destruct (lookup_key key (fields S)) as [fd|] eqn:Hfd.
    + destruct (schema fd (deref (heap w) l)) as [d|m] eqn:Hparse.
      * set (w1 := mkWorld (heap w ++ [d]) (data w) (patchHistory w) (historyId w)).
        destruct (IH (assign key (length (heap w)) validated) w1) as (w' & Hal & Hres).
        { apply valid_locs_app. exact Hve'. }
        { apply valid_locs_assign; [apply valid_locs_app; exact Hvv|].
          simpl. rewrite length_app. simpl. lia. }
        { exact Hnde'. }
        { apply NoDup_keys_assign. exact Hndv. }
        exists w'. split.
        { eapply only_allocates_trans; [|exact Hal].
          apply (only_allocates_alloc w d). }
        simpl heap in Hres. rewrite entry_ok_app in Hres by exact Hve'.
        simpl andb. destruct (forallb (entry_ok S (heap w)) rest); [|exact Hres].
        destruct Hres as (validated' & Hrun & Hv' & Hnd' & Hlook).
        exists validated'. repeat split; auto.
        intros k. rewrite Hlook. rewrite lookup_key_cons.
        rewrite lookup_key_view, lookup_key_assign.
        destruct (String.eqb_spec k key) as [->|Hne].
        -- rewrite Hnotin, Hfd, Hparse, deref_app_new. reflexivity.
        -- destruct (lookup_key k rest) as [l'|] eqn:Hk.
           ++ destruct (lookup_key k (fields S)) as [fd'|].
              ** rewrite deref_app_l; [reflexivity|].
                 exact (valid_locs_lookup _ rest k l' Hve' Hk).
              ** rewrite lookup_key_view.
                 destruct (lookup_key k validated) as [l''|] eqn:Hk'; [|reflexivity].
                 rewrite deref_app_l; [reflexivity|].
                 exact (valid_locs_lookup _ validated k l'' Hvv Hk').
           ++ rewrite lookup_key_view.
              destruct (lookup_key k validated) as [l''|] eqn:Hk'; [|reflexivity].
              rewrite deref_app_l; [reflexivity|].
              exact (valid_locs_lookup _ validated k l'' Hvv Hk').
      * exists w. split; [apply only_allocates_refl|]. reflexivity.
    + destruct (IH validated w Hve' Hvv Hnde' Hndv) as (w' & Hal & Hres).
      exists w'. split; [exact Hal|]. simpl andb.
      destruct (forallb (entry_ok S (heap w)) rest); [|exact Hres].
      destruct Hres as (validated' & Hrun & Hv' & Hnd' & Hlook).
      exists validated'. repeat split; auto.
      intros k. rewrite Hlook. rewrite lookup_key_cons.
      destruct (String.eqb_spec k key) as [->|Hne].
      * rewrite Hnotin, Hfd. reflexivity.
      * reflexivity.
Qed.

Lemma lookup_key_In {A} (k : string) (v : A) (o : obj A) :
  lookup_key k o = Some v -> In (k, v) o.
Proof.
  induction o as [|[k0 v0] o IH]; simpl; [discriminate|].
  destruct (String.eqb_spec k k0) as [->|Hne].
  - intros [= ->]. left. reflexivity.
  - intros H. right. apply IH. exact H.
Qed.

Lemma In_lookup_key {A} (k : string) (v : A) (o : obj A) :
  List.NoDup (map fst o) -> In (k, v) o -> lookup_key k o = Some v.
Proof.
  induction o as [|[k0 v0] o IH]; simpl; intros Hnd Hin; [contradiction|].
  inversion Hnd as [|? ? Hnotin Hnd']; subst.
  destruct Hin as [[= -> ->]|Hin].
  - rewrite String.eqb_refl. reflexivity.
  - destruct (String.eqb_spec k k0) as [->|Hne].
    + exfalso. apply Hnotin. apply (in_map fst) in Hin. exact Hin.
    + apply IH; assumption.
Qed.

(** [entry_ok] holds for every entry exactly when every registered key of
    the record passes its validator. *)
Lemma forallb_entry_ok_true (S : DuetSchema) (h : list value) (updates : obj loc) :
  List.NoDup (map fst updates) ->
  (forall k l fd,
      lookup_key k updates = Some l -> lookup_key k (fields S) = Some fd ->
      exists d, schema fd (deref h l) = ParseOk d) ->
  forallb (entry_ok S h) updates = true.
Proof.
  intros Hnd Hall. apply forallb_forall. intros [k l] Hin.
  unfold entry_ok. simpl.
  destruct (lookup_key k (fields S)) as [fd|] eqn:Hfd; [|reflexivity].
  destruct (Hall k l fd (In_lookup_key _ _ _ Hnd Hin) Hfd) as [d ->].
  reflexivity.
Qed.

Lemma forallb_entry_ok_false (S : DuetSchema) (h : list value) (updates : obj loc)
    (k : string) (l : loc) (fd : FieldDef) (m : string) :
  lookup_key k updates = Some l ->
  lookup_key k (fields S) = Some fd ->
  schema fd (deref h l) = ParseErr m ->
  forallb (entry_ok S h) updates = false.
Proof.
  intros Hk Hfd Herr.
  destruct (forallb (entry_ok S h) updates) eqn:Hall; [|reflexivity].
  rewrite forallb_forall in Hall.
  specialize (Hall (k, l) (lookup_key_In _ _ _ Hk)).
  unfold entry_ok in Hall. simpl in Hall. rewrite Hfd, Herr in Hall.
  discriminate.
Qed.

(** [setMany] in one piece. *)
Lemma setMany_spec (S : DuetSchema) (updates : obj loc) (w : World) :
  valid_locs (heap w) updates ->
  valid_locs (heap w) (data w) ->
  List.NoDup (map fst updates) ->
  if forallb (entry_ok S (heap w)) updates then
    exists w',
      setMany S updates w = (Ret true, w')
      /\ (exists ds, heap w' = heap w ++ ds)
      /\ patchHistory w' = patchHistory w
      /\ historyId w' = historyId w
      /\ forall k,
           lookup_key k (snapshot w')
           = match lookup_key k updates, lookup_key k (fields S) with
             | Some l, Some fd =>
                 match schema fd (deref (heap w) l) with
                 | ParseOk d => Some d
                 | ParseErr _ => None
                 end
             | _, _ => lookup_key k (snapshot w)
             end
  else
    exists w', setMany S updates w = (Ret false, w') /\ only_allocates w w'.
Proof.
  intros Hvu Hvd Hnd.
  destruct (setMany_loop_spec S updates [] w Hvu) as (w1 & Hal & Hres);
    [constructor | exact Hnd | constructor |].
  unfold setMany.
  destruct (forallb (entry_ok S (heap w)) updates) eqn:Hall.
  - destruct Hres as (validated & Hrun & Hv & Hndv & Hlook).
    rewrite (bind_M_ret _ _ _ _ _ Hrun). unfold_M.
    eexists. split; [reflexivity|]. simpl.
    destruct Hal as ([ds Hh] & Hd & Hp & Hi).
    split; [eauto|]. split; [exact Hp|]. split; [exact Hi|].
    intros k. unfold snapshot. simpl. rewrite lookup_key_view.
    rewrite lookup_key_spread by exact Hndv.
    specialize (Hlook k). rewrite lookup_key_view in Hlook.
    destruct (lookup_key k validated) as [l'|] eqn:Hk.
    + rewrite Hlook.
      destruct (lookup_key k updates) as [l|]; [|discriminate].
      destruct (lookup_key k (fields S)) as [fd|]; [|discriminate].
      reflexivity.
    + assert (Hold : match lookup_key k (data w1) with
                     | Some l => Some (deref (heap w1) l)
                     | None => None
                     end = lookup_key k (view (heap w) (data w))).
      { rewrite lookup_key_view, Hd.
        destruct (lookup_key k (data w)) as [l0|] eqn:Hk0; [|reflexivity].
        rewrite Hh, deref_app_l; [reflexivity|].
        exact (valid_locs_lookup _ _ _ _ Hvd Hk0). }
      rewrite Hold.
      destruct (lookup_key k updates) as [l|] eqn:Hku; [|reflexivity].
      destruct (lookup_key k (fields S)) as [fd|] eqn:Hkf; [|reflexivity].
      destruct (schema fd (deref (heap w) l)) eqn:Hs; [discriminate|].
      rewrite (forallb_entry_ok_false _ _ _ _ _ _ _ Hku Hkf Hs) in Hall.
      discriminate.
  - rewrite (bind_M_ret _ _ _ _ _ Hres). unfold_M. eauto.
Qed.

(** C4, as stated, fails: a key that is not a registered field name does not
    make [setMany] fail.  [setMany({ bogus: 1 })] returns [true] on the store
    of the tests and changes nothing. *)
Lemma C4_unregistered_key_does_not_fail :
  has_key "bogus" (fields TestSchema) = false
  /\ exists w',
       setMany TestSchema bogus_updates TestWorld_with_bogus = (Ret true, w')
       /\ snapshot w' = snapshot TestWorld_with_bogus.
Proof.
  split; [reflexivity|]. eexists. split; [vm_compute; reflexivity|reflexivity].
Qed.

(** C4, amended: for [updates] none of whose keys is a name that every
    object inherits ([ordinary_keys]: on such keys [key in schema.fields] is
    the own-key test of [setMany_loop]), [setMany] validates every key of
    [updates] that is a registered field name before it commits anything,
    and skips every key that is not registered.  When every registered key
    passes, the call returns [true], each registered key of [updates] holds
    its validated value and every other field keeps its value.  When some
    registered key fails validation, the call returns [false] and no field
    is updated. *)
Theorem C4_setMany_all_or_nothing
    (S : DuetSchema) (updates : obj loc) (w : World) :
  valid_locs (heap w) updates ->
  valid_locs (heap w) (data w) ->
  List.NoDup (map fst updates) ->
  ordinary_keys updates = true ->
  ((forall k l fd,
       lookup_key k updates = Some l -> lookup_key k (fields S) = Some fd ->
       exists d, schema fd (deref (heap w) l) = ParseOk d) ->
   exists w',
     setMany S updates w = (Ret true, w')
     /\ (forall k l fd d,
           lookup_key k updates = Some l -> lookup_key k (fields S) = Some fd ->
           schema fd (deref (heap w) l) = ParseOk d ->
           lookup_key k (snapshot w') = Some d)
     /\ (forall k,
           lookup_key k updates = None \/ lookup_key k (fields S) = None ->
           lookup_key k (snapshot w') = lookup_key k (snapshot w)))
  /\ ((exists k l fd m,
         lookup_key k updates = Some l /\ lookup_key k (fields S) = Some fd
         /\ schema fd (deref (heap w) l) = ParseErr m) ->
      exists w',
        setMany S updates w = (Ret false, w')
        /\ data w' = data w
        /\ snapshot w' = snapshot w).
Proof.
  intros Hvu Hvd Hnd _.
  pose proof (setMany_spec S updates w Hvu Hvd Hnd) as Hspec.
  split.
  - intros Hall.
    rewrite (forallb_entry_ok_true S (heap w) updates Hnd Hall) in Hspec.
    destruct Hspec as (w' & Hrun & _ & _ & _ & Hlook).
    exists w'. split; [exact Hrun|]. split.
    + intros k l fd d Hk Hfd Hd. rewrite Hlook, Hk, Hfd, Hd. reflexivity.
    + intros k [Hk|Hfd]; rewrite Hlook.
      * rewrite Hk. reflexivity.
      * rewrite Hfd. destruct (lookup_key k updates); reflexivity.
  - intros (k & l & fd & m & Hk & Hfd & Herr).
    rewrite (forallb_entry_ok_false S (heap w) updates k l fd m Hk Hfd Herr) in Hspec.
    destruct Hspec as (w' & Hrun & Hal).
    exists w'. split; [exact Hrun|]. split.
    + apply Hal.
    + apply only_allocates_snapshot; assumption.
Qed.

(** [setMany({ name: 'valid', count: 999 })] of the tests: rejected, nothing
    updated. *)
Lemma C4_setMany_all_or_nothing_witness :
  valid_locs (heap TestWorld_with_updates) valid_and_invalid_updates
  /\ valid_locs (heap TestWorld_with_updates) (data TestWorld_with_updates)
  /\ List.NoDup (map fst valid_and_invalid_updates)
  /\ ordinary_keys valid_and_invalid_updates = true
  /\ exists w',
       setMany TestSchema valid_and_invalid_updates TestWorld_with_updates
       = (Ret false, w')
       /\ snapshot w' = snapshot TestWorld_with_updates.
Proof.
  assert (Hvu : valid_locs (heap TestWorld_with_updates) valid_and_invalid_updates).
  { unfold valid_locs. repeat constructor. }
  assert (Hvd : valid_locs (heap TestWorld_with_updates) (data TestWorld_with_updates)).
  { unfold valid_locs. repeat constructor. }
  assert (Hnd : List.NoDup (map fst valid_and_invalid_updates)).
  { simpl. repeat constructor; simpl; intuition discriminate. }
  assert (Hord : ordinary_keys valid_and_invalid_updates = true) by reflexivity.
  split; [exact Hvu|]. split; [exact Hvd|]. split; [exact Hnd|].
  split; [exact Hord|].
  destruct (C4_setMany_all_or_nothing TestSchema valid_and_invalid_updates
              TestWorld_with_updates Hvu Hvd Hnd Hord) as [_ Hfail].
  destruct Hfail as (w' & Hrun & _ & Hsnap).
  - exists "count", 4,
      (mkFieldDef (z.number_min_max 0 100) "Count" 1),
      "Number must be less than or equal to the maximum".
    repeat split.
  - exists w'. split; [exact Hrun | exact Hsnap].
Defined.

(** ** What one operation may touch *)

(** An operation never replaces the store's record; it writes the log only
    when it makes the batch return, and then it appends one entry. *)
Lemma apply_op_frame S now p src op cand w r w' :
  apply_op S now p src op cand w = (r, w') ->
  data w' = data w
  /\ match r with
     | Ret (Return res) =>
         patchHistory w'
         = patchHistory w
             ++ [mkHistoryEntry (pretty (Datatypes.S (historyId w))) now p src res]
         /\ historyId w' = Datatypes.S (historyId w)
     | _ => patchHistory w' = patchHistory w /\ historyId w' = historyId w
     end.
Proof.
  unfold apply_op. unfold_M. intros H.
  repeat (case_match; simplify_eq; simpl; auto).
Qed.

Lemma applyPatch_loop_frame S now p src ops :
  forall cand w r w',
    applyPatch_loop S now p src ops cand w = (r, w') ->
    data w' = data w
    /\ match r with
       | Ret (Return res) =>
           patchHistory w'
           = patchHistory w
               ++ [mkHistoryEntry (pretty (Datatypes.S (historyId w))) now p src res]
           /\ historyId w' = Datatypes.S (historyId w)
       | _ => patchHistory w' = patchHistory w /\ historyId w' = historyId w
       end.
Proof.
  induction ops as [|op rest IH]; intros cand w r w' H; simpl in H.
  - inversion H; subst. auto.
  - apply bind_M_inv in H as [(a & w1 & Hop & Hk)|(e & Hop & ->)].
    + apply apply_op_frame in Hop as [Hd Hlog].
      destruct a as [cand'|res].
      * apply IH in Hk as [Hd' Hlog']. destruct Hlog as [Hp Hi].
        split; [congruence|]. rewrite <- Hp, <- Hi. exact Hlog'.
      * inversion Hk; subst. auto.
    + apply apply_op_frame in Hop. exact Hop.
Qed.

(** [setMany] never throws and never writes the log. *)
Lemma setMany_loop_frame S entries :
  forall validated w r w',
    setMany_loop S entries validated w = (r, w') ->
    (exists o, r = Ret o) /\ only_allocates w w'.
Proof.
  induction entries as [|[key l] rest IH]; intros validated w r w' H.
  - inversion H; subst. split; [eauto|apply only_allocates_refl].
  - rewrite setMany_loop_cons in H.
    destruct (lookup_key key (fields S)) as [fd|]; [|eauto].
    destruct (schema fd (deref (heap w) l)) as [d|m].
    + apply IH in H as [Hr Hal]. split; [exact Hr|].
      eapply only_allocates_trans; [|exact Hal]. apply (only_allocates_alloc w d).
    + inversion H; subst. split; [eauto|apply only_allocates_refl].
Qed.

Lemma setMany_frame S updates w r w' :
  setMany S updates w = (r, w') ->
  (exists b, r = Ret b)
  /\ patchHistory w' = patchHistory w /\ historyId w' = historyId w.
Proof.
  unfold setMany. intros H.
  apply bind_M_inv in H as [(a & w1 & Hloop & Hk)|(e & Hloop & ->)].
  - apply setMany_loop_frame in Hloop as [_ (_ & _ & Hp & Hi)].
    destruct a; unfold_M; inversion Hk; subst; simpl; eauto.
  - apply setMany_loop_frame in Hloop as [[o Ho] _]. discriminate.
Qed.

(** ** The audit log *)

(** A call of [applyPatch] that returns appends exactly one entry, with the
    next number, the batch, the source tag and the result it returns. *)
Lemma applyPatch_returns_logs_once S now p src w res w' :
  applyPatch S now p src w = (Ret res, w') ->
  patchHistory w'
  = patchHistory w ++ [mkHistoryEntry (pretty (Datatypes.S (historyId w))) now p src res]
  /\ historyId w' = Datatypes.S (historyId w).
Proof.
  unfold applyPatch. intros H.
  apply bind_M_inv in H as [(cand & w1 & Hget & H)|(e & _ & ?)]; [|discriminate].
  inversion Hget; subst; clear Hget.
  apply bind_M_inv in H as [(a & w2 & Hloop & H)|(e & _ & ?)]; [|discriminate].
  apply applyPatch_loop_frame in Hloop as [_ Hlog].
  destruct a as [cand'|r].
  - destruct Hlog as [Hp Hi].
    apply bind_M_inv in H as [(c & w3 & Hset & H)|(e & _ & ?)]; [|discriminate].
    apply setMany_frame in Hset as (_ & Hp' & Hi').
    unfold_M. inversion H; subst; simpl. rewrite Hp', Hp, Hi', Hi. auto.
  - inversion H; subst. exact Hlog.
Qed.

(** A call that throws leaves the log and its counter as they were. *)
Lemma applyPatch_throws_logs_nothing S now p src w e w' :
  applyPatch S now p src w = (Throw e, w') ->
  patchHistory w' = patchHistory w /\ historyId w' = historyId w.
Proof.
  unfold applyPatch. intros H.
  apply bind_M_inv in H as [(cand & w1 & Hget & H)|(e' & Hget & _)];
    [|inversion Hget].
  inversion Hget; subst; clear Hget.
  apply bind_M_inv in H as [(a & w2 & Hloop & H)|(e' & Hloop & _)].
  - apply applyPatch_loop_frame in Hloop as [_ Hlog].
    destruct a as [cand'|r]; [|inversion H].
    apply bind_M_inv in H as [(c & w3 & Hset & H)|(e' & Hset & _)].
    + unfold_M. inversion H.
    + apply setMany_frame in Hset as ([b Hb] & _). discriminate.
  - apply applyPatch_loop_frame in Hloop as [_ Hlog]. exact Hlog.
Qed.

(** After [N] calls that all return, the log has grown by [N] entries in
    call order, numbered consecutively. *)
Lemma applyPatch_all_log S calls :
  forall w rs w',
    applyPatch_all S calls w = (Ret rs, w') ->
    length rs = length calls
    /\ patchHistory w' = patchHistory w ++ entries_from (historyId w) calls rs
    /\ historyId w' = (historyId w + length calls)%nat.
Proof.
  induction calls as [|c rest IH]; intros w rs w' H; simpl in H.
  - inversion H; subst. simpl. rewrite app_nil_r. auto with arith.
  - apply bind_M_inv in H as [(r & w1 & Hcall & H)|(e & _ & ?)]; [|discriminate].
    apply bind_M_inv in H as [(rs' & w2 & Hrest & H)|(e & _ & ?)]; [|discriminate].
    inversion H; subst; clear H.
    apply applyPatch_returns_logs_once in Hcall as [Hp Hi].
    apply IH in Hrest as (Hlen & Hp' & Hi').
    simpl. split; [congruence|]. split.
    + rewrite Hp', Hp, Hi, <- app_assoc. reflexivity.
    + rewrite Hi', Hi. lia.
Qed.

Lemma entries_from_length n calls rs :
  length rs = length calls -> length (entries_from n calls rs) = length calls.
Proof.
  revert n rs. induction calls as [|c rest IH]; intros n [|r rs] H; simpl in *;
    try discriminate; auto.
Qed.

Lemma entries_from_ids n calls rs :
  length rs = length calls ->
  map id (entries_from n calls rs) = map pretty (seq (Datatypes.S n) (length calls)).
Proof.
  revert n rs. induction calls as [|c rest IH]; intros n [|r rs] H; simpl in *;
    try discriminate; auto.
  f_equal. apply IH. congruence.
Qed.

(** [clearHistory()] empties the log and the next entry is numbered 1 again. *)
Lemma clearHistory_restarts S now p src w res w' :
  applyPatch S now p src (snd (clearHistory w)) = (Ret res, w') ->
  history (snd (clearHistory w)) = []
  /\ history w' = [mkHistoryEntry "1" now p src res].
Proof.
  intros H. split; [reflexivity|].
  apply applyPatch_returns_logs_once in H as [Hp _]. exact Hp.
Qed.

(** ** Nested writes *)

Lemma assign_assign {A} (k : string) (v v' : A) (o : obj A) :
  assign k v (assign k v' o) = assign k v o.
Proof.
  induction o as [|[k0 v0] o IH]; simpl.
  - rewrite String.eqb_refl. reflexivity.
  - destruct (String.eqb k k0) eqn:E; simpl; rewrite E; [reflexivity|].
    rewrite IH. reflexivity.
Qed.

Lemma has_key_assign {A} (k : string) (v : A) (o : obj A) :
  has_key k (assign k v o) = true.
Proof. unfold has_key. rewrite lookup_key_assign_eq. reflexivity. Qed.

Lemma objects_along_empty (segs : list string) :
  segs <> [] -> objects_along (VObj []) segs = true.
Proof. destruct segs as [|s [|s' rest]]; intros H; [contradiction| |]; reflexivity. Qed.

(** On a walk that meets objects only, the engine's nested write is the
    write of the specification. *)
Lemma nav_set_spec_write (segs : list string) (x : value) :
  forall v,
    segs <> [] -> objects_along v segs = true ->
    nav_set v segs x = Ret (spec_write v segs x).
Proof.
  induction segs as [|seg rest IH]; intros v Hne Hobj; [contradiction|].
  destruct v as [| | | | | |kvs]; try discriminate.
  destruct rest as [|s2 rest'].
  - reflexivity.
  - change (nav_set (VObj kvs) (seg :: s2 :: rest') x)
      with (present ← has_prop (VObj kvs) seg;
            target1 ← (if present : bool then Ret (VObj kvs)
                       else set_prop (VObj kvs) seg (VObj []));
            child ← get_prop target1 seg;
            child' ← nav_set child (s2 :: rest') x;
            Ret (put_back target1 seg child')).
    simpl has_prop. unfold has_key. simpl in Hobj.
    change (spec_write (VObj kvs) (seg :: s2 :: rest') x)
      with (VObj (assign seg
                    (spec_write (match lookup_key seg kvs with
                                 | Some c => c
                                 | None => VObj []
                                 end) (s2 :: rest') x) kvs)).
    destruct (lookup_key seg kvs) as [c|] eqn:Hk.
    + cbn [mbind outcome_bind get_prop]. rewrite Hk.
      rewrite (IH c) by (auto; discriminate).
      cbn [mbind outcome_bind put_back]. unfold has_key. rewrite Hk. reflexivity.
    + cbn [mbind outcome_bind get_prop set_prop]. rewrite lookup_key_assign_eq.
      rewrite (IH (VObj [])) by (try apply objects_along_empty; discriminate).
      cbn [mbind outcome_bind put_back].
      rewrite has_key_assign, assign_assign. reflexivity.
Qed.

(** The written value is found under the path. *)
Lemma get_path_spec_write (segs : list string) (x : value) :
  forall v,
    segs <> [] -> objects_along v segs = true ->
    get_path (spec_write v segs x) segs = x.
Proof.
  induction segs as [|seg rest IH]; intros v Hne Hobj; [contradiction|].
  destruct v as [| | | | | |kvs]; try discriminate.
  destruct rest as [|s2 rest'].
  - simpl. rewrite lookup_key_assign_eq. reflexivity.
  - change (spec_write (VObj kvs) (seg :: s2 :: rest') x)
      with (VObj (assign seg
                    (spec_write (match lookup_key seg kvs with
                                 | Some c => c
                                 | None => VObj []
                                 end) (s2 :: rest') x) kvs)).
    change (get_path (VObj ?o) (seg :: ?r))
      with (match lookup_key seg o with
            | Some c => get_path c r
            | None => VUndef
            end).
    rewrite lookup_key_assign_eq. apply IH; [discriminate|].
    simpl in Hobj. destruct (lookup_key seg kvs); [exact Hobj|].
    apply objects_along_empty. discriminate.
Qed.

Lemma diverges_nonempty (q segs : list string) :
  diverges q segs = true -> q <> [] /\ segs <> [].
Proof. destruct q, segs; simpl; intros H; try discriminate; split; discriminate. Qed.

(** Everything off the written path is as it was: sibling keys at every
    level keep their values. *)
Lemma get_path_spec_write_other (segs : list string) (x : value) :
  forall v q,
    objects_along v segs = true -> diverges q segs = true ->
    get_path (spec_write v segs x) q = get_path v q.
Proof.
  induction segs as [|seg rest IH]; intros v q Hobj Hdiv.
  - destruct q; discriminate.
  - destruct q as [|k q']; [discriminate|].
    destruct v as [| | | | | |kvs]; try (destruct rest; discriminate).
    simpl in Hdiv.
    assert (Hw : exists c, spec_write (VObj kvs) (seg :: rest) x
                           = VObj (assign seg c kvs)
                           /\ (String.eqb k seg = true ->
                               get_path c q'
                               = get_path (match lookup_key seg kvs with
                                           | Some c0 => c0
                                           | None => VObj []
                                           end) q')).
    { destruct rest as [|s2 rest'].
      - exists x. split; [reflexivity|]. intros E. rewrite E in Hdiv.
        destruct q'; discriminate.
      - eexists. split; [reflexivity|]. intros E. rewrite E in Hdiv.
        apply IH; [|exact Hdiv].
        simpl in Hobj. destruct (lookup_key seg kvs); [exact Hobj|].
        apply objects_along_empty. discriminate. }
    destruct Hw as (c & -> & Hc). simpl.
    rewrite lookup_key_assign.
    destruct (String.eqb_spec k seg) as [->|Hne].
    + rewrite Hc by reflexivity.
      destruct (lookup_key seg kvs); [reflexivity|].
      apply diverges_nonempty in Hdiv as [Hq _].
      destruct q'; [contradiction|reflexivity].
    + reflexivity.
Qed.

Lemma is_str_eq (v : value) (s : string) : is_str v s = true -> v = VStr s.
Proof.
  destruct v; simpl; try discriminate.
  intros H. apply String.eqb_eq in H. congruence.
Qed.

Lemma replace_or_add_is_not_remove (kind : value) :
  is_str kind "replace" || is_str kind "add" = true -> is_str kind "remove" = false.
Proof.
  intros H. apply orb_true_iff in H as [H|H]; apply is_str_eq in H; subst; reflexivity.
Qed.

Lemma applyPatch_loop_app S now p src pre :
  forall post cand w cand' w1,
    applyPatch_loop S now p src pre cand w = (Ret (Continue cand'), w1) ->
    applyPatch_loop S now p src (pre ++ post) cand w
    = applyPatch_loop S now p src post cand' w1.
Proof.
  induction pre as [|op rest IH]; intros post cand w cand' w1 H; simpl in *.
  - inversion H; subst. reflexivity.
  - apply bind_M_inv in H as [(a & w2 & Hop & Hk)|(e & _ & ?)]; [|discriminate].
    rewrite (bind_M_ret _ _ _ _ _ Hop).
    destruct a as [c|r]; [|discriminate]. apply IH. exact Hk.
Qed.

(** The nested branch of [replace]/[add], for one operation: clone, write,
    validate the whole value. *)
Lemma apply_op_nested_write S now p src op path root nested kind x cand w fd v0 :
  op_path op = Ret path ->
  split_slash (strip_slash path) = root :: nested ->
  nested <> [] ->
  lookup_key root (fields S) = Some fd ->
  get_prop op "op" = Ret kind ->
  is_str kind "replace" || is_str kind "add" = true ->
  get_prop op "value" = Ret x ->
  json_clone (slot_value (heap w) (lookup_key root cand)) = Ret v0 ->
  objects_along v0 nested = true ->
  apply_op S now p src op cand w
  = match schema fd (spec_write v0 nested x) with
    | ParseOk d =>
        (Ret (Continue (assign root (length (heap w)) cand)),
         mkWorld (heap w ++ [d]) (data w) (patchHistory w) (historyId w))
    | ParseErr m =>
        let res := Failure ("Invalid value for " ++ path ++ ": " ++ m) in
        (Ret (Return res),
         mkWorld (heap w) (data w)
                 (patchHistory w
                    ++ [mkHistoryEntry (pretty (Datatypes.S (historyId w))) now p src res])
                 (Datatypes.S (historyId w)))
    end.
Proof.
  intros Hpath Hsplit Hne Hfd Hkind Hop Hval Hclone Hobj.
  unfold apply_op. unfold_M.
  rewrite Hpath, Hsplit. cbn [hd tl]. unfold has_key, validate. rewrite Hfd.
  cbn [negb]. rewrite Hkind, (replace_or_add_is_not_remove kind Hop), Hop, Hval.
  assert (Hlen : (length (root :: nested) =? 1)%nat = false).
  { destruct nested; [contradiction|reflexivity]. }
  rewrite Hlen, Hclone, (nav_set_spec_write nested x v0 Hne Hobj).
  destruct (schema fd (spec_write v0 nested x)); reflexivity.
Qed.

(** C6: the nested write is not carried out for every [replace] or [add].
    On the store of the tests [name] is a registered field that holds the
    string [default]; for [replace /name/a/b "x"] the engine clones the
    string and then asks whether [a] is [in] it, which throws.  The
    validator of [name] is never given a value, the batch is not failed with
    a result, and the call leaves [applyPatch] with a [TypeError]; the store
    and its log are as before. *)
Theorem C6_nested_write_below_string_faults :
  has_key "name" (fields TestSchema) = true
  /\ op_path (hd VUndef replace_under_string) = Ret "/name/a/b"
  /\ json_clone (slot_value (heap TestWorld) (lookup_key "name" (data TestWorld)))
     = Ret (VStr "default")
  /\ (exists e, nav_set (VStr "default") ["a"; "b"] (VStr "x") = Throw (TypeError e))
  /\ (exists e, applyPatch TestSchema 0 replace_under_string llm TestWorld
                = (Throw (TypeError e), TestWorld)).
Proof.
  split; [reflexivity|]. split; [reflexivity|]. split; [reflexivity|].
  split; eexists; vm_compute; reflexivity.
Qed.

(** ** [applyJSON] *)

(** Every call of [applyJSON] returns a result: whatever is thrown inside
    is caught. *)
Lemma applyJSON_total JSON_parse S json src now w :
  exists r w', applyJSON JSON_parse S json src now w = (Ret r, w').
Proof.
  unfold applyJSON, catch_all.
  match goal with |- context [match ?b with _ => _ end] => destruct b as [[r|e] w'] end;
    eauto.
Qed.

(** Text that is not JSON: a parse error, and nothing else happens. *)
Lemma applyJSON_syntax_error JSON_parse S json src now w e :
  JSON_parse json = Throw e ->
  applyJSON JSON_parse S json src now w
  = (Ret (Failure ("JSON parse error: " ++ exn_message e)), w).
Proof.
  intros Hp. unfold applyJSON, catch_all.
  rewrite (bind_M_throw _ _ w w e) by (rewrite lift_run, Hp; reflexivity).
  reflexivity.
Qed.

(** A fault inside [applyPatch] comes back from [applyJSON] as a failure
    labelled as a parse error, and is not logged. *)
Lemma applyJSON_fault_is_not_logged JSON_parse S json src now w ops e w' :
  JSON_parse json = Ret (VArr ops) ->
  applyPatch S now ops src w = (Throw e, w') ->
  applyJSON JSON_parse S json src now w
  = (Ret (Failure ("JSON parse error: " ++ exn_message e)), w')
  /\ patchHistory w' = patchHistory w.
Proof.
  intros Hp Hthrow. split.
  - unfold applyJSON, catch_all.
    rewrite (bind_M_ret _ _ w w (VArr ops)) by (rewrite lift_run, Hp; reflexivity).
    simpl. rewrite Hthrow. reflexivity.
  - apply applyPatch_throws_logs_nothing in Hthrow. apply Hthrow.
Qed.

(** JSON of another shape, [null] apart: the format message, and nothing
    else happens. *)
Lemma applyJSON_wrong_shape JSON_parse S json src now w v inner :
  JSON_parse json = Ret v ->
  isArray v = false ->
  get_prop v "patch" = Ret inner ->
  isArray inner = false ->
  applyJSON JSON_parse S json src now w
  = (Ret (Failure "Expected JSON Patch array or { patch: [...] } format"), w).
Proof.
  intros Hp Hv Hget Hinner. unfold applyJSON, catch_all.
  rewrite (bind_M_ret _ _ w w v) by (rewrite lift_run, Hp; reflexivity).
  rewrite Hv.
  rewrite (bind_M_ret _ _ w w inner) by (rewrite lift_run, Hget; reflexivity).
  rewrite Hinner, andb_false_r. reflexivity.
Qed.

(** ** Nested [remove] *)

Lemma remove_key_absent {A} (k : string) (o : obj A) :
  lookup_key k o = None -> remove_key k o = o.
Proof.
  induction o as [|[k0 v0] o IH]; simpl; [reflexivity|].
  destruct (String.eqb k k0); [discriminate|]. intros H. rewrite IH by exact H.
  reflexivity.
Qed.

(** Only an absent final key is tolerated. *)
Lemma nav_delete_absent_last (kvs : obj value) (last : string) :
  lookup_key last kvs = None ->
  nav_delete (VObj kvs) [last] = Ret (VObj kvs).
Proof. intros H. simpl. rewrite remove_key_absent by exact H. reflexivity. Qed.

Lemma nav_delete_undefined (segs : list string) :
  segs <> [] -> exists e, nav_delete VUndef segs = Throw (TypeError e).
Proof.
  destruct segs as [|s [|s2 rest]]; intros H; [contradiction| |]; simpl; eauto.
Qed.

(** A nested [remove] whose walk reaches an object that lacks the next
    intermediate segment throws, when that segment is not a name that every
    object inherits: reading it gives [undefined], and the next step reads
    or deletes a member of [undefined]. *)
Lemma nav_delete_absent_throws (pre : list string) :
  forall (v : value) (kvs : obj value) (seg : string) (rest : list string),
    get_path v pre = VObj kvs ->
    lookup_key seg kvs = None ->
    inherited_name seg = false ->
    rest <> [] ->
    exists e, nav_delete v (pre ++ seg :: rest) = Throw (TypeError e).
Proof.
  induction pre as [|s pre IH]; intros v kvs seg rest Hget Habs Hord Hrest.
  - simpl in Hget. subst v. destruct rest as [|s2 rest]; [contradiction|].
    change (nav_delete (VObj kvs) ([] ++ seg :: s2 :: rest))
      with (child ← get_prop (VObj kvs) seg;
            child' ← nav_delete child (s2 :: rest);
            Ret (put_back (VObj kvs) seg child')).
    cbn [get_prop mbind outcome_bind]. rewrite Habs.
    destruct (nav_delete_undefined (s2 :: rest)) as [e ->]; [discriminate|].
    eauto.
  - destruct v as [| | | | | |o]; try discriminate. simpl in Hget.
    destruct (lookup_key s o) as [c|] eqn:Hs; [|discriminate].
    destruct (IH c kvs seg rest Hget Habs Hord Hrest) as [e He].
    assert (Hne : pre ++ seg :: rest <> []) by (destruct pre; discriminate).
    destruct (pre ++ seg :: rest) as [|s2 tail] eqn:Htail; [contradiction|].
    change (nav_delete (VObj o) ((s :: pre) ++ seg :: rest))
      with (nav_delete (VObj o) (s :: pre ++ seg :: rest)).
    rewrite Htail.
    change (nav_delete (VObj o) (s :: s2 :: tail))
      with (child ← get_prop (VObj o) s;
            child' ← nav_delete child (s2 :: tail);
            Ret (put_back (VObj o) s child')).
    cbn [get_prop mbind outcome_bind]. rewrite Hs, He. eauto.
Qed.

(** ** Cloning *)

Lemma clone_inner_json (v : value) : is_json v = true -> clone_inner v = v.
Proof.
  induction v as [| | | | |xs IH|kvs IH] using value_ind_nested;
    simpl; intros H; try reflexivity; try discriminate.
  - f_equal. induction IH as [|x xs Hx _ IHxs]; simpl in *; [reflexivity|].
    apply andb_true_iff in H as [H1 H2]. rewrite Hx, IHxs by assumption.
    reflexivity.
  - f_equal. induction IH as [|[k x] kvs Hx _ IHkvs]; simpl in *; [reflexivity|].
    apply andb_true_iff in H as [H1 H2].
    rewrite Hx, IHkvs by assumption.
    destruct x; try reflexivity. discriminate.
Qed.

Lemma json_clone_json (v : value) : is_json v = true -> json_clone v = Ret v.
Proof.
  intros H. unfold json_clone. rewrite (clone_inner_json v H).
  destruct v; [discriminate|reflexivity..].
Qed.

(** ** Nested writes on objects *)

(** A [replace] or [add] with a nested path, where the claim about nested
    writes does hold: the root is a registered field whose candidate value
    [cur] is a JSON object, the walk meets objects only, and no segment is
    an array index or a name that every object inherits (so that [in] and
    the member reads of the walk see own keys only).  The cloned value is
    [cur] itself; the engine writes the value under the path, creating the
    missing intermediate objects ([spec_write]); everything off the path is
    what the field held; the whole resulting value is given to the field's
    validator.  When the validator accepts, the working copy gets the
    validated value and the loop goes on; when it rejects, the operation
    makes the batch return a failure, and [applyPatch] returns that failure
    without committing. *)
Theorem nested_write_on_objects
    (S : DuetSchema) (now : Z) (p : list value) (src : Source)
    (op : value) (path root : string) (nested : list string)
    (kind x : value) (cand : obj loc) (w : World) (fd : FieldDef) (cur : value) :
  op_path op = Ret path ->
  split_slash (strip_slash path) = root :: nested ->
  nested <> [] ->
  inherited_name root = false ->
  forallb ordinary_segment nested = true ->
  lookup_key root (fields S) = Some fd ->
  get_prop op "op" = Ret kind ->
  is_str kind "replace" || is_str kind "add" = true ->
  get_prop op "value" = Ret x ->
  slot_value (heap w) (lookup_key root cand) = cur ->
  is_json cur = true ->
  objects_along cur nested = true ->
  let v1 := spec_write cur nested x in
  json_clone cur = Ret cur
  /\ nav_set cur nested x = Ret v1
  /\ get_path v1 nested = x
  /\ (forall q, diverges q nested = true -> get_path v1 q = get_path cur q)
  /\ (forall d,
        schema fd v1 = ParseOk d ->
        apply_op S now p src op cand w
        = (Ret (Continue (assign root (length (heap w)) cand)),
           mkWorld (heap w ++ [d]) (data w) (patchHistory w) (historyId w)))
  /\ (forall m,
        schema fd v1 = ParseErr m ->
        forall w0 pre post,
          p = pre ++ op :: post ->
          applyPatch_loop S now p src pre (data w0) w0 = (Ret (Continue cand), w) ->
          exists w',
            applyPatch S now p src w0
            = (Ret (Failure ("Invalid value for " ++ path ++ ": " ++ m)), w')
            /\ data w' = data w0).
Proof.
  intros Hpath Hsplit Hne _ _ Hfd Hkind Hop Hval Hcur Hjson Hobj v1.
  pose proof (json_clone_json cur Hjson) as Hclone.
  assert (Hclone' : json_clone (slot_value (heap w) (lookup_key root cand)) = Ret cur)
    by (rewrite Hcur; exact Hclone).
  pose proof (apply_op_nested_write S now p src op path root nested kind x cand
                w fd cur Hpath Hsplit Hne Hfd Hkind Hop Hval Hclone' Hobj) as Hstep.
  fold v1 in Hstep.
  split; [exact Hclone|].
  split; [apply nav_set_spec_write; assumption|].
  split; [apply get_path_spec_write; assumption|].
  split; [intros q; apply get_path_spec_write_other; assumption|].
  split.
  - intros d Hd. rewrite Hstep, Hd. reflexivity.
  - intros m Hm w0 pre post Hp Hpre. rewrite Hm in Hstep.
    cbv zeta in Hstep.
    pose proof (applyPatch_loop_app S now p src pre (op :: post) _ _ _ _ Hpre)
      as Hloop.
    cbn [applyPatch_loop] in Hloop.
    rewrite (bind_M_ret _ _ _ _ _ Hstep) in Hloop.
    rewrite <- Hp in Hloop.
    eexists. split.
    + unfold applyPatch.
      rewrite (bind_M_ret get_data _ w0 w0 (data w0)) by reflexivity.
      rewrite (bind_M_ret _ _ _ _ _ Hloop). reflexivity.
    + simpl. apply applyPatch_loop_frame in Hpre as [Hd _]. exact Hd.
Qed.

(** [replace /contact/name "John"] of the tests: [email] and [phone] are
    kept. *)
Lemma nested_write_on_objects_witness :
  op_path rename_contact = Ret "/contact/name"
  /\ split_slash (strip_slash "/contact/name") = ["contact"; "name"]
  /\ inherited_name "contact" = false
  /\ forallb ordinary_segment ["name"] = true
  /\ lookup_key "contact" (fields NestedSchema) = Some contact_field
  /\ slot_value (heap NestedWorld) (lookup_key "contact" (data NestedWorld))
     = contact_default
  /\ is_json contact_default = true
  /\ objects_along contact_default ["name"] = true
  /\ nav_set contact_default ["name"] (VStr "John") = Ret contact_john
  /\ get_path contact_john ["email"] = get_path contact_default ["email"]
  /\ apply_op NestedSchema 0 [rename_contact] llm rename_contact
              (data NestedWorld) NestedWorld
     = (Ret (Continue [("contact", 1)]),
        mkWorld [contact_default; contact_john] (data NestedWorld) [] 0).
Proof.
  assert (H1 : op_path rename_contact = Ret "/contact/name") by reflexivity.
  assert (H2 : split_slash (strip_slash "/contact/name") = ["contact"; "name"])
    by reflexivity.
  assert (H3 : ["name"] <> @nil string) by discriminate.
  assert (Hr : inherited_name "contact" = false) by reflexivity.
  assert (Hs : forallb ordinary_segment ["name"] = true) by reflexivity.
  assert (H4 : lookup_key "contact" (fields NestedSchema) = Some contact_field)
    by reflexivity.
  assert (H5 : get_prop rename_contact "op" = Ret (VStr "replace")) by reflexivity.
  assert (H6 : is_str (VStr "replace") "replace" || is_str (VStr "replace") "add" = true)
    by reflexivity.
  assert (H7 : get_prop rename_contact "value" = Ret (VStr "John")) by reflexivity.
  assert (H8 : slot_value (heap NestedWorld) (lookup_key "contact" (data NestedWorld))
               = contact_default) by reflexivity.
  assert (Hj : is_json contact_default = true) by reflexivity.
  assert (H9 : objects_along contact_default ["name"] = true) by reflexivity.
  destruct (nested_write_on_objects NestedSchema 0 [rename_contact]
              llm rename_contact "/contact/name" "contact" ["name"]
              (VStr "replace") (VStr "John") (data NestedWorld) NestedWorld
              contact_field contact_default H1 H2 H3 Hr Hs H4 H5 H6 H7 H8 Hj H9)
    as (_ & Hnav & _ & Hsib & Hok & _).
  split; [exact H1|]. split; [exact H2|]. split; [exact Hr|]. split; [exact Hs|].
  split; [exact H4|]. split; [exact H8|]. split; [exact Hj|]. split; [exact H9|].
  split; [exact Hnav|].
  split; [apply (Hsib ["email"]); reflexivity|].
  apply (Hok contact_john). reflexivity.
Defined.

(** ** Defaults *)

Lemma getDefaults_has_key (S : DuetSchema) (k : string) :
  has_key k (fields S) = true ->
  exists d, lookup_key k (getDefaults S) = Some d.
Proof.
  unfold getDefaults.
  assert (Hgen : forall fs acc,
             has_key k fs = true \/ has_key k acc = true ->
             exists d,
               lookup_key k
                 (fold_left (fun defaults kf => assign (fst kf) (default (snd kf)) defaults)
                            fs acc) = Some d).
  { induction fs as [|[k0 fd] fs IH]; intros acc H; simpl.
    - destruct H as [H|H]; [discriminate|]. unfold has_key in H.
      destruct (lookup_key k acc); [eauto|discriminate].
    - apply IH. unfold has_key in *. simpl in H.
      rewrite lookup_key_assign.
      destruct (String.eqb k k0); [right; reflexivity|].
      destruct H as [H|H]; [left|right]; exact H. }
  intros H. apply Hgen. left. exact H.
Qed.

(** ** Atomicity, away from nested [remove] *)

(** Every operation but a nested [remove] leaves the existing objects alone:
    it can only build new ones. *)
Lemma apply_op_only_allocates S now p src op cand w r w' :
  is_nested_remove op = false ->
  apply_op S now p src op cand w = (r, w') ->
  exists ds, heap w' = heap w ++ ds.
Proof.
  unfold apply_op, is_nested_remove. unfold_M. intros Hnr H.
  repeat (case_match; simplify_eq; simpl in *);
    try (exists []; rewrite app_nil_r; reflexivity);
    try (eexists; reflexivity);
    try discriminate.
Qed.

Lemma applyPatch_loop_only_allocates S now p src ops :
  forall cand w r w',
    forallb (fun op => negb (is_nested_remove op)) ops = true ->
    applyPatch_loop S now p src ops cand w = (r, w') ->
    exists ds, heap w' = heap w ++ ds.
Proof.
  induction ops as [|op rest IH]; intros cand w r w' Hall H; simpl in *.
  - inversion H; subst. exists []. rewrite app_nil_r. reflexivity.
  - apply andb_true_iff in Hall as [Hop Hrest].
    apply negb_true_iff in Hop.
    apply bind_M_inv in H as [(a & w1 & Hstep & Hk)|(e & Hstep & ->)].
    + apply (apply_op_only_allocates _ _ _ _ _ _ _ _ _ Hop) in Hstep as [d1 H1].
      destruct a as [cand'|res].
      * apply (IH _ _ _ _ Hrest) in Hk as [d2 H2].
        exists (d1 ++ d2). rewrite H2, H1, app_assoc. reflexivity.
      * inversion Hk; subst. eauto.
    + apply (apply_op_only_allocates _ _ _ _ _ _ _ _ _ Hop) in Hstep. exact Hstep.
Qed.

(** A batch without nested [remove] that does not succeed, be it rejected or
    interrupted by a fault, leaves the snapshot as it was. *)
Lemma applyPatch_atomic_without_nested_remove S now p src w r w' :
  valid_locs (heap w) (data w) ->
  forallb (fun op => negb (is_nested_remove op)) p = true ->
  applyPatch S now p src w = (r, w') ->
  (forall n, r <> Ret (Success n)) ->
  snapshot w' = snapshot w.
Proof.
  intros Hv Hall H Hfail. unfold applyPatch in H.
  apply bind_M_inv in H as [(cand & w1 & Hget & H)|(e & Hget & _)];
    [|inversion Hget].
  inversion Hget; subst; clear Hget.
  assert (Hsnap : forall w2 ds,
             heap w2 = heap w1 ++ ds -> data w2 = data w1 ->
             snapshot w2 = snapshot w1).
  { intros w2 ds Hh Hd. unfold snapshot. rewrite Hh, Hd. apply view_app. exact Hv. }
  apply bind_M_inv in H as [(a & w2 & Hloop & H)|(e & Hloop & ->)].
  - pose proof (applyPatch_loop_frame _ _ _ _ _ _ _ _ _ Hloop) as [Hd _].
    apply (applyPatch_loop_only_allocates _ _ _ _ _ _ _ _ _ Hall) in Hloop as [d1 H1].
    destruct a as [cand'|res].
    + apply bind_M_inv in H as [(c & w3 & Hset & H)|(e & Hset & _)].
      * unfold setMany in Hset.
        apply bind_M_inv in Hset as [(o & w4 & Hl & Hset)|(e & Hl & ?)];
          [|discriminate].
        apply setMany_loop_frame in Hl as [_ ([d2 H2] & Hd2 & _)].
        destruct o as [validated|].
        -- unfold_M. inversion Hset; subst. inversion H; subst.
           exfalso. apply (Hfail (length p)). reflexivity.
        -- unfold_M. inversion Hset; subst. inversion H; subst. simpl.
           apply (Hsnap _ (d1 ++ d2)); simpl; [|congruence].
           rewrite H2, H1, app_assoc. reflexivity.
      * apply setMany_frame in Hset as ([b Hb] & _). discriminate.
    + inversion H; subst. apply (Hsnap _ d1); assumption.
  - pose proof (applyPatch_loop_frame _ _ _ _ _ _ _ _ _ Hloop) as [Hd _].
    apply (applyPatch_loop_only_allocates _ _ _ _ _ _ _ _ _ Hall) in Hloop as [d1 H1].
    apply (Hsnap _ d1); assumption.
Qed.

(** * Further properties of the code *)

(** ** The store: [set] *)

(** [set(field, value)] on a registered field: an accepted value is stored
    as the validator returns it, no other field changes and the log is left
    alone; a rejected value changes nothing at all. *)
Theorem set_updates_one_field
    (S : DuetSchema) (field : string) (v : value) (w : World) (fd : FieldDef) :
  valid_locs (heap w) (data w) ->
  lookup_key field (fields S) = Some fd ->
  match schema fd v with
  | ParseOk d =>
      exists w',
        set S field v w = (Ret true, w')
        /\ lookup_key field (snapshot w') = Some d
        /\ (forall k, k <> field ->
                      lookup_key k (snapshot w') = lookup_key k (snapshot w))
        /\ patchHistory w' = patchHistory w
        /\ historyId w' = historyId w
  | ParseErr _ => set S field v w = (Ret false, w)
  end.
Proof.
  intros Hv Hfd. unfold set, validate. rewrite Hfd. unfold_M.
  destruct (schema fd v) as [d|m]; [|reflexivity].
  eexists. split; [reflexivity|]. unfold snapshot. simpl.
  split; [|split; [|split; reflexivity]].
  - rewrite lookup_key_view, lookup_key_assign_eq, deref_app_new. reflexivity.
  - intros k Hne. rewrite !lookup_key_view, lookup_key_assign_ne by exact Hne.
    destruct (lookup_key k (data w)) as [l|] eqn:Hk; [|reflexivity].
    rewrite deref_app_l; [reflexivity|].
    exact (valid_locs_lookup _ _ _ _ Hv Hk).
Qed.

(** [set('count', 50)] on the store of the tests. *)
Lemma set_updates_one_field_witness :
  valid_locs (heap TestWorld) (data TestWorld)
  /\ exists w',
       set TestSchema "count" (VNum 50) TestWorld = (Ret true, w')
       /\ lookup_key "count" (snapshot w') = Some (VNum 50)
       /\ lookup_key "name" (snapshot w') = Some (VStr "default").
Proof.
  assert (Hv : valid_locs (heap TestWorld) (data TestWorld)).
  { unfold valid_locs. repeat constructor. }
  split; [exact Hv|].
  pose proof (set_updates_one_field TestSchema "count" (VNum 50) TestWorld
                (mkFieldDef (z.number_min_max 0 100) "Count" 1) Hv eq_refl) as H.
  simpl in H. destruct H as (w' & Hrun & Hcount & Hother & _).
  exists w'. split; [exact Hrun|]. split; [exact Hcount|].
  rewrite (Hother "name") by discriminate. reflexivity.
Defined.

(** On a name that is not inherited, [in] is the own-key test. *)
Lemma js_in_own {A} (k : string) (o : obj A) :
  inherited_name k = false -> js_in k o = has_key k o.
Proof. intros H. unfold js_in. rewrite H. apply orb_false_r. Qed.

Lemma ordinary_keys_in {A B} (updates : obj A) (o : obj B) (k : string) (a : A) :
  ordinary_keys updates = true ->
  lookup_key k updates = Some a ->
  js_in k o = has_key k o.
Proof.
  intros Hord Hk. apply js_in_own.
  induction updates as [|[k0 a0] updates IH]; simpl in *; [discriminate|].
  apply andb_prop in Hord as [H0 Hrest].
  destruct (String.eqb_spec k k0) as [->|_].
  - now apply negb_true_iff in H0.
  - apply IH; assumption.
Qed.

(** [set] on a name that is not registered does not return [false]: reading
    [this.fields[field].schema] throws.  [setMany] skips such a key when it
    is not a name that every object inherits: then [key in schema.fields]
    is false. *)
Theorem set_unregistered_field_throws
    (S : DuetSchema) (field : string) (v : value) (w : World) :
  lookup_key field (fields S) = None ->
  (exists e, set S field v w = (Throw (TypeError e), w))
  /\ (inherited_name field = false ->
      js_in field (fields S) = false
      /\ forall l, setMany S [(field, l)] w = (Ret true, w)).
Proof.
  intros Hfd. split.
  - unfold set, validate. rewrite Hfd. unfold_M. eauto.
  - intros Hin. split.
    + unfold js_in, has_key. rewrite Hfd, Hin. reflexivity.
    + intros l. unfold setMany. simpl. unfold has_key. rewrite Hfd. unfold_M.
      destruct w; reflexivity.
Qed.

Lemma set_unregistered_field_witness :
  lookup_key "bogus" (fields TestSchema) = None
  /\ inherited_name "bogus" = false
  /\ (exists e, set TestSchema "bogus" (VNum 1) TestWorld = (Throw (TypeError e), TestWorld))
  /\ setMany TestSchema [("bogus", 0)] TestWorld = (Ret true, TestWorld).
Proof.
  assert (H1 : lookup_key "bogus" (fields TestSchema) = None) by reflexivity.
  assert (H2 : inherited_name "bogus" = false) by reflexivity.
  destruct (set_unregistered_field_throws TestSchema "bogus" (VNum 1) TestWorld H1)
    as [Hset Hmany].
  split; [exact H1|]. split; [exact H2|]. split; [exact Hset|].
  apply (Hmany H2).
Defined.

(** ** Defaults and [reset] *)

Lemma assign_fresh {A} (k : string) (v : A) (o : obj A) :
  lookup_key k o = None -> assign k v o = o ++ [(k, v)].
Proof.
  induction o as [|[k0 v0] o IH]; simpl; [reflexivity|].
  destruct (String.eqb k k0); [discriminate|]. intros H. rewrite IH by exact H.
  reflexivity.
Qed.

Lemma fold_assign_fresh {A B} (f : B -> A) (kvs : obj B) :
  forall acc : obj A,
    List.NoDup (map fst acc ++ map fst kvs) ->
    fold_left (fun d kf => assign (fst kf) (f (snd kf)) d) kvs acc
    = acc ++ map (fun kf => (fst kf, f (snd kf))) kvs.
Proof.
  induction kvs as [|[k b] kvs IH]; intros acc Hnd; simpl.
  - rewrite app_nil_r. reflexivity.
  - assert (Hfresh : lookup_key k acc = None).
    { apply lookup_key_None. intros Hin.
      simpl in Hnd. apply List.NoDup_remove_2 in Hnd.
      apply Hnd. apply in_or_app. left. exact Hin. }
    rewrite assign_fresh by exact Hfresh. rewrite IH.
    + rewrite <- app_assoc. reflexivity.
    + rewrite map_app. simpl. rewrite <- app_assoc. exact Hnd.
Qed.

(** With distinct field names, the record that [getDefaults()] builds has
    one entry for each field, holding the default object as registered. *)
Lemma getDefaults_map (S : DuetSchema) :
  List.NoDup (getFieldIds S) ->
  getDefaults S = map (fun kf => (fst kf, default (snd kf))) (fields S).
Proof.
  intros Hnd. unfold getDefaults.
  rewrite (fold_assign_fresh default (fields S) []); [reflexivity|exact Hnd].
Qed.

Lemma lookup_key_map_snd {A B} (f : A -> B) (k : string) (o : obj A) :
  lookup_key k (map (fun kf => (fst kf, f (snd kf))) o)
  = match lookup_key k o with Some a => Some (f a) | None => None end.
Proof.
  induction o as [|[k0 a] o IH]; simpl; [reflexivity|].
  destruct (String.eqb k k0); [reflexivity|exact IH].
Qed.

(** [reset()], key by key: when the field names are distinct and none is a
    name that every object inherits, the snapshot after [reset()] has under
    each registered name what that field's default object holds at that
    moment, and has no other key; the log is left alone.  Nothing is said
    about the order of the keys. *)
Theorem reset_installs_defaults (S : DuetSchema) (w : World) :
  List.NoDup (getFieldIds S) ->
  ordinary_keys (fields S) = true ->
  exists w',
    reset S w = (Ret tt, w')
    /\ (forall k,
          lookup_key k (snapshot w')
          = match lookup_key k (fields S) with
            | Some fd => Some (deref (heap w) (default fd))
            | None => None
            end)
    /\ heap w' = heap w
    /\ patchHistory w' = patchHistory w
    /\ historyId w' = historyId w.
Proof.
  intros Hnd _. eexists. split; [reflexivity|].
  split; [|repeat split].
  intros k. unfold snapshot, view. simpl.
  rewrite (getDefaults_map S Hnd), map_map. simpl.
  apply (lookup_key_map_snd (fun fd => deref (heap w) (default fd))).
Qed.

Lemma reset_installs_defaults_witness :
  List.NoDup (getFieldIds TestSchema)
  /\ ordinary_keys (fields TestSchema) = true
  /\ exists w',
       reset TestSchema TestWorld_with_updates = (Ret tt, w')
       /\ lookup_key "name" (snapshot w') = Some (VStr "default")
       /\ lookup_key "count" (snapshot w') = Some (VNum 0)
       /\ lookup_key "active" (snapshot w') = Some (VBool false)
       /\ lookup_key "bogus" (snapshot w') = None.
Proof.
  assert (Hnd : List.NoDup (getFieldIds TestSchema)).
  { simpl. repeat constructor; simpl; intuition discriminate. }
  assert (Hord : ordinary_keys (fields TestSchema) = true) by reflexivity.
  split; [exact Hnd|]. split; [exact Hord|].
  destruct (reset_installs_defaults TestSchema TestWorld_with_updates Hnd Hord)
    as (w' & Hrun & Hsnap & _).
  exists w'. split; [exact Hrun|].
  rewrite !Hsnap. repeat split.
Defined.

(** ** [validateAll] *)

Lemma assign_not_nil {A} (k : string) (v : A) (o : obj A) : assign k v o <> [].
Proof. destruct o as [|[k0 v0] o]; simpl; [|destruct (String.eqb k k0)]; discriminate. Qed.

Lemma validateAll_loop_not_nil S h entries :
  forall errors, errors <> [] -> validateAll_loop S h entries errors <> [].
Proof.
  induction entries as [|[key l] rest IH]; intros errors Hne; simpl; [exact Hne|].
  destruct (lookup_key key (fields S)) as [fd|]; [|auto].
  destruct (schema fd (deref h l)); [auto|].
  apply IH. apply assign_not_nil.
Qed.

Lemma validateAll_loop_empty S h entries :
  (length (validateAll_loop S h entries []) =? 0)%nat
  = forallb (entry_ok S h) entries.
Proof.
  induction entries as [|[key l] rest IH]; simpl; [reflexivity|].
  unfold entry_ok at 1. simpl.
  destruct (lookup_key key (fields S)) as [fd|]; [|exact IH].
  destruct (schema fd (deref h l)); [exact IH|]. simpl.
  destruct (validateAll_loop S h rest [(key, message_or_invalid message)]) eqn:E;
    [|reflexivity].
  exfalso. revert E. apply validateAll_loop_not_nil. discriminate.
Qed.

Lemma validateAll_loop_lookup S h entries :
  forall errors k,
    List.NoDup (map fst entries) ->
    lookup_key k (validateAll_loop S h entries errors)
    = match lookup_key k entries, lookup_key k (fields S) with
      | Some l, Some fd =>
          match schema fd (deref h l) with
          | ParseErr m => Some (message_or_invalid m)
          | ParseOk _ => lookup_key k errors
          end
      | _, _ => lookup_key k errors
      end.
Proof.
  induction entries as [|[key l] rest IH]; intros errors k Hnd; [reflexivity|].
  inversion Hnd as [|? ? Hnotin Hnd']; subst.
  apply lookup_key_None in Hnotin.
  rewrite lookup_key_cons. simpl validateAll_loop.
  destruct (String.eqb_spec k key) as [->|Hne].
  - destruct (lookup_key key (fields S)) as [fd|].
    + destruct (schema fd (deref h l)).
      * rewrite IH, Hnotin by exact Hnd'. reflexivity.
      * rewrite IH, Hnotin, lookup_key_assign_eq by exact Hnd'. reflexivity.
    + rewrite IH, Hnotin by exact Hnd'. reflexivity.
  - assert (Hk : forall m, lookup_key k (assign key m errors) = lookup_key k errors).
    { intros m. apply lookup_key_assign_ne. exact Hne. }
    destruct (lookup_key key (fields S)) as [fd|]; [|apply IH; exact Hnd'].
    destruct (schema fd (deref h l)); rewrite IH by exact Hnd'; [reflexivity|].
    rewrite Hk. reflexivity.
Qed.

(** [validateAll(data)] and [setMany(data)] agree on a record none of whose
    keys is a name that every object inherits (for those keys the test
    [key in this.fields] is the own-key test): [setMany] returns exactly
    the [success] flag that [validateAll] computes.  The [errors] record has
    an entry for a key exactly when the key is registered and its value is
    rejected, with the validator's message (or [Invalid value] when the
    message is empty); keys outside the schema never appear. *)
Theorem validateAll_agrees_with_setMany
    (S : DuetSchema) (updates : obj loc) (w : World) :
  valid_locs (heap w) updates ->
  valid_locs (heap w) (data w) ->
  List.NoDup (map fst updates) ->
  ordinary_keys updates = true ->
  (exists w',
      setMany S updates w = (Ret (fst (validateAll S (heap w) updates)), w'))
  /\ forall k,
       lookup_key k (snd (validateAll S (heap w) updates))
       = match lookup_key k updates, lookup_key k (fields S) with
         | Some l, Some fd =>
             match schema fd (deref (heap w) l) with
             | ParseErr m => Some (message_or_invalid m)
             | ParseOk _ => None
             end
         | _, _ => None
         end.
Proof.
  intros Hvu Hvd Hnd _. split.
  - unfold validateAll. cbn [fst]. rewrite validateAll_loop_empty.
    pose proof (setMany_spec S updates w Hvu Hvd Hnd) as Hspec.
    destruct (forallb (entry_ok S (heap w)) updates).
    + destruct Hspec as (w' & Hrun & _). eauto.
    + destruct Hspec as (w' & Hrun & _). eauto.
  - intros k. unfold validateAll. cbn [snd].
    rewrite validateAll_loop_lookup by exact Hnd. reflexivity.
Qed.

(** [{ name: 'valid', count: 999 }] of the tests: both report a failure,
    and the error is filed under [count]. *)
Lemma validateAll_agrees_with_setMany_witness :
  valid_locs (heap TestWorld_with_updates) valid_and_invalid_updates
  /\ valid_locs (heap TestWorld_with_updates) (data TestWorld_with_updates)
  /\ List.NoDup (map fst valid_and_invalid_updates)
  /\ ordinary_keys valid_and_invalid_updates = true
  /\ (exists w',
        setMany TestSchema valid_and_invalid_updates TestWorld_with_updates
        = (Ret false, w'))
  /\ map fst (snd (validateAll TestSchema (heap TestWorld_with_updates)
                               valid_and_invalid_updates)) = ["count"].
Proof.
  assert (Hvu : valid_locs (heap TestWorld_with_updates) valid_and_invalid_updates).
  { unfold valid_locs. repeat constructor. }
  assert (Hvd : valid_locs (heap TestWorld_with_updates) (data TestWorld_with_updates)).
  { unfold valid_locs. repeat constructor. }
  assert (Hnd : List.NoDup (map fst valid_and_invalid_updates)).
  { simpl. repeat constructor; simpl; intuition discriminate. }
  assert (Hord : ordinary_keys valid_and_invalid_updates = true) by reflexivity.
  split; [exact Hvu|]. split; [exact Hvd|]. split; [exact Hnd|].
  split; [exact Hord|].
  destruct (validateAll_agrees_with_setMany TestSchema valid_and_invalid_updates
              TestWorld_with_updates Hvu Hvd Hnd Hord) as [Hrun _].
  split; [exact Hrun|reflexivity].
Defined.

(** ** [applyPatch]: the working copy and the commit *)

Lemma valid_locs_mono (h h' : list value) (o : obj loc) :
  valid_locs h o -> length h <= length h' -> valid_locs h' o.
Proof.
  unfold valid_locs. intros H Hle. eapply Forall_impl; [exact H|].
  intros [k l] Hl. simpl in *. lia.
Qed.

Lemma has_key_assign_mono {A} (k k' : string) (v : A) (o : obj A) :
  has_key k o = true -> has_key k (assign k' v o) = true.
Proof.
  unfold has_key. rewrite lookup_key_assign.
  destruct (String.eqb k k'); [reflexivity|auto].
Qed.

(** One operation keeps the working copy well formed: its slots point into
    the heap, its keys stay distinct and none is lost. *)
Lemma apply_op_keeps_candidate S now p src op cand w cand' w' :
  apply_op S now p src op cand w = (Ret (Continue cand'), w') ->
  valid_locs (heap w) cand ->
  valid_locs (heap w) (getDefaults S) ->
  List.NoDup (map fst cand) ->
  length (heap w) <= length (heap w')
  /\ valid_locs (heap w') cand'
  /\ List.NoDup (map fst cand')
  /\ (forall k, has_key k cand = true -> has_key k cand' = true).
Proof.
  unfold apply_op. unfold_M. intros H Hv Hdef Hnd.
  repeat (case_match; simplify_eq; simpl in * );
    repeat match goal with |- _ /\ _ => split end;
    rewrite ?length_insert, ?length_app; simpl;
    try lia; try assumption;
    try (apply NoDup_keys_assign; assumption);
    try (intros k Hk; apply has_key_assign_mono; exact Hk);
    try (intros k Hk; exact Hk).
  - apply valid_locs_assign; [assumption|].
    eapply valid_locs_lookup; [exact Hdef|eassumption].
  - eapply valid_locs_mono; [exact Hv|]. rewrite length_insert. lia.
  - apply valid_locs_assign; [apply valid_locs_app; assumption|].
    rewrite length_app. simpl. lia.
  - apply valid_locs_assign; [apply valid_locs_app; assumption|].
    rewrite length_app. simpl. lia.
Qed.

Lemma applyPatch_loop_keeps_candidate S now p src ops :
  forall cand w cand' w',
    applyPatch_loop S now p src ops cand w = (Ret (Continue cand'), w') ->
    valid_locs (heap w) cand ->
    valid_locs (heap w) (getDefaults S) ->
    List.NoDup (map fst cand) ->
    length (heap w) <= length (heap w')
    /\ valid_locs (heap w') cand'
    /\ List.NoDup (map fst cand')
    /\ (forall k, has_key k cand = true -> has_key k cand' = true).
Proof.
  induction ops as [|op rest IH]; intros cand w cand' w' H Hv Hdef Hnd; simpl in H.
  - inversion H; subst. auto.
  - apply bind_M_inv in H as [(a & w1 & Hop & Hk)|(e & _ & ?)]; [|discriminate].
    destruct a as [c|r]; [|discriminate].
    apply apply_op_keeps_candidate in Hop as (Hle & Hv1 & Hnd1 & Hkeys);
      try assumption.
    apply IH in Hk as (Hle' & Hv' & Hnd' & Hkeys'); try assumption.
    + repeat split; try assumption; [lia|]. intros k Hk. auto.
    + eapply valid_locs_mono; [exact Hdef|exact Hle].
Qed.

Lemma push_history_snapshot now p src r w :
  snapshot (snd (push_history now p src r w)) = snapshot w.
Proof. reflexivity. Qed.

(** What [applyPatch] does once its loop has gone through the whole batch:
    it hands the working copy to [setMany] and reports what [setMany] says. *)
Lemma applyPatch_after_loop S now p src w cand w1 b w2 :
  applyPatch_loop S now p src p (data w) w = (Ret (Continue cand), w1) ->
  setMany S cand w1 = (Ret b, w2) ->
  applyPatch S now p src w
  = (Ret (if b then Success (length p)
          else Failure "Failed to commit changes to store"),
     snd (push_history now p src
            (if b then Success (length p)
             else Failure "Failed to commit changes to store") w2)).
Proof.
  intros Hloop Hset. unfold applyPatch.
  rewrite (bind_M_ret get_data _ w w (data w)) by reflexivity.
  rewrite (bind_M_ret _ _ _ _ _ Hloop).
  rewrite (bind_M_ret _ _ _ _ _ Hset). reflexivity.
Qed.

(** The commit can be refused.  When the loop accepts every operation but a
    registered field of the working copy holds a value its validator
    rejects (checked again by [setMany], for every field, touched or not),
    the batch fails with [Failed to commit changes to store], the store's
    record is not replaced and the attempt is logged. *)
Theorem applyPatch_commit_rejected
    (S : DuetSchema) (now : Z) (p : list value) (src : Source) (w : World)
    (cand : obj loc) (w1 : World) (k : string) (l : loc) (fd : FieldDef)
    (m : string) :
  valid_locs (heap w) (data w) ->
  valid_locs (heap w) (getDefaults S) ->
  List.NoDup (map fst (data w)) ->
  applyPatch_loop S now p src p (data w) w = (Ret (Continue cand), w1) ->
  lookup_key k cand = Some l ->
  lookup_key k (fields S) = Some fd ->
  schema fd (deref (heap w1) l) = ParseErr m ->
  exists w',
    applyPatch S now p src w
    = (Ret (Failure "Failed to commit changes to store"), w')
    /\ data w' = data w
    /\ patchHistory w'
       = patchHistory w
           ++ [mkHistoryEntry (pretty (Datatypes.S (historyId w))) now p src
                              (Failure "Failed to commit changes to store")].
Proof.
  intros Hv Hdef Hnd Hloop Hk Hfd Herr.
  pose proof (applyPatch_loop_keeps_candidate _ _ _ _ _ _ _ _ _ Hloop Hv Hdef Hnd)
    as (Hle & Hv1 & Hnd1 & _).
  pose proof (applyPatch_loop_frame _ _ _ _ _ _ _ _ _ Hloop) as (Hd & Hp & Hi).
  assert (Hvd1 : valid_locs (heap w1) (data w1)).
  { rewrite Hd. eapply valid_locs_mono; [exact Hv|exact Hle]. }
  pose proof (setMany_spec S cand w1 Hv1 Hvd1 Hnd1) as Hspec.
  rewrite (forallb_entry_ok_false S (heap w1) cand k l fd m Hk Hfd Herr) in Hspec.
  destruct Hspec as (w2 & Hset & _ & Hd2 & Hp2 & Hi2).
  eexists. split; [exact (applyPatch_after_loop _ _ _ _ _ _ _ _ _ Hloop Hset)|].
  simpl. split; [congruence|]. rewrite Hp2, Hp, Hi2, Hi. reflexivity.
Qed.

(** [remove /contact/name] on the nested store: the loop accepts it, the
    commit refuses the contact without a name. *)
Lemma applyPatch_commit_rejected_witness :
  exists w',
    applyPatch NestedSchema 0 remove_name llm NestedWorld
    = (Ret (Failure "Failed to commit changes to store"), w')
    /\ data w' = data NestedWorld.
Proof.
  assert (Hv : valid_locs (heap NestedWorld) (data NestedWorld)).
  { unfold valid_locs. repeat constructor. }
  assert (Hdef : valid_locs (heap NestedWorld) (getDefaults NestedSchema)).
  { unfold valid_locs. repeat constructor. }
  assert (Hnd : List.NoDup (map fst (data NestedWorld))).
  { simpl. repeat constructor; simpl; intuition discriminate. }
  destruct (applyPatch_commit_rejected NestedSchema 0 remove_name llm NestedWorld
              [("contact", 0)]
              (mkWorld [VObj [("email", VStr ""); ("phone", VStr "")]]
                       (data NestedWorld) [] 0)
              "contact" 0 contact_field "Required" Hv Hdef Hnd)
    as (w' & Hrun & Hd & _); try reflexivity.
  exists w'. split; [exact Hrun|exact Hd].
Defined.

(** A successful [applyPatch] re-establishes validity: afterwards every
    registered field of the snapshot holds a value that its validator has
    just returned, whatever the store held before. *)
Theorem applyPatch_success_revalidates
    (S : DuetSchema) (now : Z) (p : list value) (src : Source) (w : World)
    (n : nat) (w' : World) :
  valid_locs (heap w) (data w) ->
  valid_locs (heap w) (getDefaults S) ->
  List.NoDup (map fst (data w)) ->
  applyPatch S now p src w = (Ret (Success n), w') ->
  forall k fd v,
    lookup_key k (fields S) = Some fd ->
    lookup_key k (snapshot w') = Some v ->
    exists input, schema fd input = ParseOk v.
Proof.
  intros Hv Hdef Hnd Hrun k fd v Hfd Hsnap.
  unfold applyPatch in Hrun.
  apply bind_M_inv in Hrun as [(cur & w0 & Hget & Hrun)|(e & _ & ?)]; [|discriminate].
  inversion Hget; subst; clear Hget.
  apply bind_M_inv in Hrun as [(a & w1 & Hloop & Hrun)|(e & _ & ?)]; [|discriminate].
  destruct a as [cand|res].
  2:{ apply applyPatch_loop_return_is_failure in Hloop as [m ->]. inversion Hrun. }
  apply bind_M_inv in Hrun as [(b & w2 & Hset & Hrun)|(e & _ & ?)]; [|discriminate].
  pose proof (applyPatch_loop_keeps_candidate _ _ _ _ _ _ _ _ _ Hloop Hv Hdef Hnd)
    as (Hle & Hv1 & Hnd1 & Hkeys).
  pose proof (applyPatch_loop_frame _ _ _ _ _ _ _ _ _ Hloop) as (Hd & _).
  assert (Hvd1 : valid_locs (heap w1) (data w1)).
  { rewrite Hd. eapply valid_locs_mono; [exact Hv|exact Hle]. }
  pose proof (setMany_spec S cand w1 Hv1 Hvd1 Hnd1) as Hspec.
  destruct b.
  2:{ unfold_M. inversion Hrun. }
  unfold_M. inversion Hrun; subst; clear Hrun.
  change (lookup_key k (snapshot w2) = Some v) in Hsnap.
  destruct (forallb (entry_ok S (heap w1)) cand).
  2:{ destruct Hspec as (w3 & Hset' & _). rewrite Hset in Hset'. discriminate. }
  destruct Hspec as (w3 & Hset' & _ & _ & _ & Hlook).
  rewrite Hset in Hset'. inversion Hset'; subst w3; clear Hset'.
  rewrite Hlook, Hfd in Hsnap.
  destruct (lookup_key k cand) as [l|] eqn:Hk.
  - destruct (schema fd (deref (heap w1) l)) as [d|m] eqn:Hs; [|discriminate].
    inversion Hsnap; subst. eauto.
  - exfalso. unfold snapshot in Hsnap. rewrite lookup_key_view, Hd in Hsnap.
    destruct (lookup_key k (data w0)) as [l|] eqn:Hk0; [|discriminate].
    assert (Hhas : has_key k cand = true).
    { apply Hkeys. unfold has_key. rewrite Hk0. reflexivity. }
    unfold has_key in Hhas. rewrite Hk in Hhas. discriminate.
Qed.

(** After [replace /name "test"] on the store of the tests, [count] holds a
    value its validator returns. *)
Lemma applyPatch_success_revalidates_witness :
  exists w',
    applyPatch TestSchema 0 [JsonPatchOp "replace" "/name" (Some (VStr "test"))]
               llm TestWorld = (Ret (Success 1), w')
    /\ exists input, z.number_min_max 0 100 input = ParseOk (VNum 0).
Proof.
  assert (Hv : valid_locs (heap TestWorld) (data TestWorld)).
  { unfold valid_locs. repeat constructor. }
  assert (Hdef : valid_locs (heap TestWorld) (getDefaults TestSchema)).
  { unfold valid_locs. repeat constructor. }
  assert (Hnd : List.NoDup (map fst (data TestWorld))).
  { simpl. repeat constructor; simpl; intuition discriminate. }
  eexists. split; [vm_compute; reflexivity|].
  apply (applyPatch_success_revalidates TestSchema 0
           [JsonPatchOp "replace" "/name" (Some (VStr "test"))] llm TestWorld 1
           _ Hv Hdef Hnd eq_refl "count"
           (mkFieldDef (z.number_min_max 0 100) "Count" 1) (VNum 0));
    reflexivity.
Defined.

(** A batch of one [replace]/[add] on a top-level field.  The value is
    validated twice, once by the loop and once more by [setMany] on what
    the first pass returned, together with the current value of every
    other field.  When all pass, [applied] is 1 and the field holds the
    result of the second pass; when the second pass rejects the result of
    the first, the batch fails at the commit. *)
Theorem applyPatch_flat_replace_validates_twice
    (S : DuetSchema) (now : Z) (src : Source) (w : World)
    (op : value) (path f : string) (kind v d : value) (fd : FieldDef) :
  valid_locs (heap w) (data w) ->
  List.NoDup (map fst (data w)) ->
  op_path op = Ret path ->
  split_slash (strip_slash path) = [f] ->
  get_prop op "op" = Ret kind ->
  is_str kind "replace" || is_str kind "add" = true ->
  get_prop op "value" = Ret v ->
  lookup_key f (fields S) = Some fd ->
  schema fd v = ParseOk d ->
  (forall k l fd',
      k <> f -> lookup_key k (data w) = Some l ->
      lookup_key k (fields S) = Some fd' ->
      exists d0, schema fd' (deref (heap w) l) = ParseOk d0) ->
  match schema fd d with
  | ParseOk d' =>
      exists w',
        applyPatch S now [op] src w = (Ret (Success 1), w')
        /\ lookup_key f (snapshot w') = Some d'
  | ParseErr _ =>
      exists w',
        applyPatch S now [op] src w
        = (Ret (Failure "Failed to commit changes to store"), w')
        /\ snapshot w' = snapshot w
  end.
Proof.
  intros Hv Hnd Hpath Hsplit Hkind Hop Hval Hfd Hparse Hothers.
  remember (mkWorld (heap w ++ [d]) (data w) (patchHistory w) (historyId w))
    as w1 eqn:Hw1.
  remember (assign f (length (heap w)) (data w)) as cand eqn:Hcand.
  assert (Hheap1 : heap w1 = heap w ++ [d]) by (subst w1; reflexivity).
  assert (Hdata1 : data w1 = data w) by (subst w1; reflexivity).
  assert (Hloop : applyPatch_loop S now [op] src [op] (data w) w
                  = (Ret (Continue cand), w1)).
  { subst cand w1. simpl. unfold apply_op. unfold_M.
    rewrite Hpath, Hsplit. cbn [hd tl length Nat.eqb]. unfold has_key, validate.
    rewrite Hfd. cbn [negb].
    rewrite Hkind, (replace_or_add_is_not_remove kind Hop), Hop, Hval, Hparse.
    reflexivity. }
  assert (Hv1 : valid_locs (heap w1) cand).
  { rewrite Hheap1, Hcand.
    apply valid_locs_assign; [apply valid_locs_app; exact Hv|].
    rewrite length_app. simpl. lia. }
  assert (Hvd1 : valid_locs (heap w1) (data w1)).
  { rewrite Hheap1, Hdata1. apply valid_locs_app. exact Hv. }
  assert (Hnd1 : List.NoDup (map fst cand)).
  { rewrite Hcand. apply NoDup_keys_assign. exact Hnd. }
  pose proof (setMany_spec S cand w1 Hv1 Hvd1 Hnd1) as Hspec.
  assert (Hcand_f : @lookup_key loc f cand = Some (length (heap w))).
  { rewrite Hcand. apply (@lookup_key_assign_eq loc). }
  assert (Hderef_f : deref (heap w1) (length (heap w)) = d).
  { rewrite Hheap1. apply deref_app_new. }
  destruct (schema fd d) as [d'|m] eqn:Hsecond.
  - rewrite (forallb_entry_ok_true S (heap w1) cand Hnd1) in Hspec.
    + destruct Hspec as (w2 & Hset & _ & _ & _ & Hlook).
      eexists. split; [exact (applyPatch_after_loop _ _ _ _ _ _ _ _ _ Hloop Hset)|].
      rewrite push_history_snapshot, Hlook, Hcand_f, Hfd, Hderef_f, Hsecond.
      reflexivity.
    + intros k l fd' Hk Hfd'.
      destruct (String.eqb_spec k f) as [->|Hne].
      * rewrite Hcand_f in Hk. inversion Hk; subst l.
        rewrite Hfd in Hfd'. inversion Hfd'; subst fd'.
        rewrite Hderef_f, Hsecond. eauto.
      * rewrite Hcand, lookup_key_assign_ne in Hk by exact Hne.
        rewrite Hheap1, deref_app_l by exact (valid_locs_lookup _ _ _ _ Hv Hk).
        eapply Hothers; eauto.
  - rewrite (forallb_entry_ok_false S (heap w1) cand f _ fd m Hcand_f Hfd) in Hspec
      by (rewrite Hderef_f; exact Hsecond).
    destruct Hspec as (w2 & Hset & Hal).
    eexists. split; [exact (applyPatch_after_loop _ _ _ _ _ _ _ _ _ Hloop Hset)|].
    rewrite push_history_snapshot.
    rewrite (only_allocates_snapshot w1 w2 Hvd1 Hal).
    unfold snapshot. rewrite Hheap1, Hdata1. apply view_app. exact Hv.
Qed.

(** [replace /count 42] on the store of the tests. *)
Lemma applyPatch_flat_replace_witness :
  exists w',
    applyPatch TestSchema 0 [JsonPatchOp "replace" "/count" (Some (VNum 42))]
               llm TestWorld = (Ret (Success 1), w')
    /\ lookup_key "count" (snapshot w') = Some (VNum 42).
Proof.
  assert (Hv : valid_locs (heap TestWorld) (data TestWorld)).
  { unfold valid_locs. repeat constructor. }
  assert (Hnd : List.NoDup (map fst (data TestWorld))).
  { simpl. repeat constructor; simpl; intuition discriminate. }
  pose proof (applyPatch_flat_replace_validates_twice TestSchema 0 llm TestWorld
                (JsonPatchOp "replace" "/count" (Some (VNum 42))) "/count" "count"
                (VStr "replace") (VNum 42) (VNum 42)
                (mkFieldDef (z.number_min_max 0 100) "Count" 1)
                Hv Hnd eq_refl eq_refl eq_refl eq_refl eq_refl eq_refl eq_refl) as H.
  simpl in H. apply H.
  intros k l fd' Hne Hk Hfd'.
  destruct (String.eqb_spec k "name") as [->|Hn1].
  { inversion Hk; subst. inversion Hfd'; subst. simpl. eauto. }
  destruct (String.eqb_spec k "count") as [->|Hn2]; [contradiction|].
  destruct (String.eqb_spec k "active") as [->|Hn3].
  { inversion Hk; subst. inversion Hfd'; subst. simpl. eauto. }
  simpl in Hk.
  destruct (String.eqb_spec k "name"); [contradiction|].
  destruct (String.eqb_spec k "count"); [contradiction|].
  destruct (String.eqb_spec k "active"); [contradiction|discriminate].
Defined.

(** ** Nested [remove], where the walk succeeds *)





(** ** Paths *)

Lemma split_slash_no_slash (s : string) :
  has_slash s = false -> split_slash s = [s].
Proof.
  induction s as [|c s IH]; simpl; [reflexivity|].
  destruct (Ascii.eqb c "/"); [discriminate|]. simpl. intros H.
  rewrite IH by exact H. reflexivity.
Qed.

Lemma split_slash_app (s t : string) :
  has_slash s = false ->
  split_slash (s ++ String "/" t) = s :: split_slash t.
Proof.
  induction s as [|c s IH]; simpl; [reflexivity|].
  destruct (Ascii.eqb c "/"); [discriminate|]. simpl. intros H.
  rewrite IH by exact H. reflexivity.
Qed.

Lemma split_slash_concat (segs : list string) :
  segs <> [] ->
  forallb (fun s => negb (has_slash s)) segs = true ->
  split_slash (String.concat "/" segs) = segs.
Proof.
  induction segs as [|s rest IH]; intros Hne Hall; [contradiction|].
  simpl in Hall. apply andb_true_iff in Hall as [Hs Hrest].
  apply negb_true_iff in Hs.
  destruct rest as [|s2 rest'].
  - simpl. apply split_slash_no_slash. exact Hs.
  - change (String.concat "/" (s :: s2 :: rest'))
      with (s ++ String "/" (String.concat "/" (s2 :: rest')))%string.
    rewrite split_slash_app by exact Hs.
    rewrite IH; [reflexivity|discriminate|exact Hrest].
Qed.

(** Paths are read back as they were written: joining segments that have
    no [/] in them with [/] behind a leading [/] gives a path that the
    engine splits into the same segments.  The leading [/] may be left out
    when the first segment is not empty.  Nothing is unescaped. *)
Theorem path_segments_round_trip (segs : list string) :
  segs <> [] ->
  forallb (fun s => negb (has_slash s)) segs = true ->
  split_slash (strip_slash (String "/" (String.concat "/" segs))) = segs
  /\ (hd "" segs <> "" ->
      split_slash (strip_slash (String.concat "/" segs)) = segs).
Proof.
  intros Hne Hall. split.
  - simpl. apply split_slash_concat; assumption.
  - intros Hhd.
    assert (Hstrip : strip_slash (String.concat "/" segs) = String.concat "/" segs).
    { destruct segs as [|s rest]; [contradiction|].
      simpl in Hhd, Hall. apply andb_true_iff in Hall as [Hs _].
      apply negb_true_iff in Hs.
      destruct s as [|c s']; [contradiction|].
      simpl in Hs. apply orb_false_iff in Hs as [Hc _].
      assert (Hshape : exists t, String.concat "/" (String c s' :: rest) = String c t).
      { destruct rest; simpl; eauto. }
      destruct Hshape as [t ->]. simpl.
      destruct c as [[] [] [] [] [] [] [] []]; try reflexivity; discriminate. }
    rewrite Hstrip. apply split_slash_concat; assumption.
Qed.

Lemma path_segments_round_trip_witness :
  split_slash (strip_slash "/contact/name") = ["contact"; "name"]
  /\ split_slash (strip_slash "contact/name") = ["contact"; "name"].
Proof.
  destruct (path_segments_round_trip ["contact"; "name"]) as [H1 H2];
    [discriminate|reflexivity|].
  split; [exact H1|]. apply H2. discriminate.
Defined.

(** ** The stand-alone bridge ([createLLMBridge]) *)

Lemma op_path_get_prop (op : value) (path k : string) :
  op_path op = Ret path -> exists v, get_prop op k = Ret v.
Proof.
  destruct op; simpl; try discriminate; intros _; eauto.
Qed.

(** One operation of the stand-alone bridge, when the operation is an object
    with a string path: it returns, it only builds new objects, it leaves
    the store's record alone, and it writes the log only to report a
    failure. *)
Lemma llm_apply_op_frame S now p src op updates w r w' path :
  op_path op = Ret path ->
  createLLMBridge.apply_op S now p src op updates w = (r, w') ->
  (exists sr, r = Ret sr)
  /\ (exists ds, heap w' = heap w ++ ds)
  /\ data w' = data w
  /\ match r with
     | Ret (Return res) =>
         (exists m, res = Failure m)
         /\ patchHistory w'
            = patchHistory w
                ++ [mkHistoryEntry (pretty (Datatypes.S (historyId w))) now p src res]
         /\ historyId w' = Datatypes.S (historyId w)
     | _ => patchHistory w' = patchHistory w /\ historyId w' = historyId w
     end.
Proof.
  intros Hpath H.
  destruct (op_path_get_prop op path "op" Hpath) as [kind Hkind].
  destruct (op_path_get_prop op path "value" Hpath) as [v Hv].
  unfold createLLMBridge.apply_op, validate, has_key in H. unfold_M.
  rewrite Hpath, Hkind, Hv in H.
  repeat (case_match; simplify_eq; simpl in * );
    repeat match goal with |- _ /\ _ => split end;
    eauto;
    try (exists []; rewrite app_nil_r; reflexivity).
Qed.

Lemma llm_loop_frame S now p src ops :
  forall updates w,
    Forall (fun op => exists path, op_path op = Ret path) ops ->
    exists sr w',
      createLLMBridge.applyPatch_loop S now p src ops updates w = (Ret sr, w')
      /\ (exists ds, heap w' = heap w ++ ds)
      /\ data w' = data w
      /\ match sr with
         | Return res =>
             (exists m, res = Failure m)
             /\ patchHistory w'
                = patchHistory w
                    ++ [mkHistoryEntry (pretty (Datatypes.S (historyId w))) now p src res]
             /\ historyId w' = Datatypes.S (historyId w)
         | Continue _ => patchHistory w' = patchHistory w /\ historyId w' = historyId w
         end.
Proof.
  induction ops as [|op rest IH]; intros updates w Hall.
  - exists (Continue updates), w. simpl. repeat split.
    exists []. rewrite app_nil_r. reflexivity.
  - inversion Hall as [|? ? [path Hpath] Hrest]; subst.
    destruct (createLLMBridge.apply_op S now p src op updates w) as [r w1] eqn:Hop.
    destruct (llm_apply_op_frame _ _ _ _ _ _ _ _ _ _ Hpath Hop)
      as ([sr ->] & [d1 H1] & Hd1 & Hlog1).
    simpl. rewrite (bind_M_ret _ _ _ _ _ Hop).
    destruct sr as [updates'|res].
    + destruct (IH updates' w1 Hrest) as (sr2 & w2 & Hrun & [d2 H2] & Hd2 & Hlog2).
      exists sr2, w2. split; [exact Hrun|]. split.
      { exists (d1 ++ d2). rewrite H2, H1, app_assoc. reflexivity. }
      split; [congruence|].
      destruct Hlog1 as [Hp1 Hi1]. rewrite <- Hp1, <- Hi1. exact Hlog2.
    + exists (Return res), w1. split; [reflexivity|]. eauto.
Qed.

Lemma ordinary_root_path (op : value) :
  ordinary_root op = true -> exists path, op_path op = Ret path.
Proof.
  unfold ordinary_root. destruct (op_path op); [eauto|discriminate].
Qed.

(** The stand-alone bridge is total and atomic on failure.  For every batch
    of operations that are objects with a string path whose first segment
    is not a name that every object inherits (for such a segment
    [fieldName in schema.fields] is the own-key test of the loop),
    [applyPatch] returns a result, logs exactly one entry with it, and never
    modifies an object that exists: it only builds new ones.  When the
    result is a failure the snapshot is what it was. *)
Theorem createLLMBridge_applyPatch_total_and_atomic
    (S : DuetSchema) (now : Z) (p : list value) (src : Source) (w : World) :
  Forall (fun op => ordinary_root op = true) p ->
  valid_locs (heap w) (data w) ->
  exists r w',
    createLLMBridge.applyPatch S now p src w = (Ret r, w')
    /\ (exists ds, heap w' = heap w ++ ds)
    /\ patchHistory w'
       = patchHistory w
           ++ [mkHistoryEntry (pretty (Datatypes.S (historyId w))) now p src r]
    /\ (forall m, r = Failure m -> snapshot w' = snapshot w).
Proof.
  intros Hord Hv.
  assert (Hall : Forall (fun op => exists path, op_path op = Ret path) p).
  { eapply List.Forall_impl; [|exact Hord]. exact ordinary_root_path. }
  destruct (llm_loop_frame S now p src p [] w Hall)
    as (sr & w1 & Hloop & [d1 H1] & Hd1 & Hlog).
  unfold createLLMBridge.applyPatch. rewrite (bind_M_ret _ _ _ _ _ Hloop).
  destruct sr as [updates|res].
  - destruct Hlog as [Hp1 Hi1].
    destruct (setMany S updates w1) as [rb w2] eqn:Hset.
    pose proof Hset as Hset'. unfold setMany in Hset'.
    apply bind_M_inv in Hset' as [(o & w3 & Hl & Hk)|(e & Hl & _)].
    2:{ apply setMany_loop_frame in Hl as [[o Ho] _]. discriminate. }
    apply setMany_loop_frame in Hl as [_ ([d2 H2] & Hd2 & Hp2 & Hi2)].
    assert (Hw2 : (exists b, rb = Ret b) /\ heap w2 = heap w3
                  /\ patchHistory w2 = patchHistory w3
                  /\ historyId w2 = historyId w3).
    { destruct o; unfold_M; inversion Hk; subst; simpl; eauto. }
    destruct Hw2 as ([b ->] & Hh & Hp3 & Hi3).
    rewrite (bind_M_ret _ _ _ _ _ Hset). unfold_M.
    eexists _, _. split; [reflexivity|]. simpl.
    split; [exists (d1 ++ d2); rewrite Hh, H2, H1, app_assoc; reflexivity|].
    split; [rewrite Hp3, Hp2, Hp1, Hi3, Hi2, Hi1; reflexivity|].
    intros m Hm. discriminate.
  - destruct Hlog as (_ & Hp1 & Hi1).
    exists res, w1. split; [reflexivity|]. split; [eauto|]. split; [exact Hp1|].
    intros m _. unfold snapshot. rewrite H1, Hd1. apply view_app. exact Hv.
Qed.

(** The batch of the tests whose second operation is invalid. *)
Lemma createLLMBridge_applyPatch_witness :
  exists m w',
    createLLMBridge.applyPatch TestSchema 0
      [JsonPatchOp "replace" "/name" (Some (VStr "new"));
       JsonPatchOp "replace" "/count" (Some (VNum 999))] llm TestWorld
    = (Ret (Failure m), w')
    /\ snapshot w' = snapshot TestWorld.
Proof.
  assert (Hv : valid_locs (heap TestWorld) (data TestWorld)).
  { unfold valid_locs. repeat constructor. }
  destruct (createLLMBridge_applyPatch_total_and_atomic TestSchema 0
              [JsonPatchOp "replace" "/name" (Some (VStr "new"));
               JsonPatchOp "replace" "/count" (Some (VNum 999))] llm TestWorld)
    as (r & w' & Hrun & _ & _ & Hatomic).
  - repeat constructor.
  - exact Hv.
  - assert (Hr : r = Failure
        "Invalid value for count: Number must be less than or equal to the maximum").
    { vm_compute in Hrun. inversion Hrun. reflexivity. }
    exists "Invalid value for count: Number must be less than or equal to the maximum", w'.
    split; [rewrite Hrun, Hr; reflexivity|]. apply (Hatomic _ Hr).
Defined.

Lemma split_slash_hd_no_slash (s : string) :
  has_slash (hd "" (split_slash s)) = false.
Proof.
  induction s as [|c s IH]; simpl; [reflexivity|].
  destruct (Ascii.eqb c "/") eqn:Hc; [reflexivity|].
  destruct (split_slash s) as [|x xs]; simpl in *; rewrite Hc; [reflexivity|exact IH].
Qed.

(** The stand-alone bridge looks at the first segment of a path only: an
    operation on [/field/any/thing] is carried out exactly as the same
    operation on [/field], its value being validated as the value of the
    whole field. *)
Theorem createLLMBridge_ignores_nested_path
    (S : DuetSchema) (now : Z) (p : list value) (src : Source)
    (kind path : string) (v : option value) (updates : obj loc) (w : World) :
  createLLMBridge.apply_op S now p src (JsonPatchOp kind path v) updates w
  = createLLMBridge.apply_op S now p src
      (JsonPatchOp kind (String "/" (hd "" (split_slash (strip_slash path)))) v)
      updates w.
Proof.
  unfold createLLMBridge.apply_op.
  assert (Hp : forall q, op_path (JsonPatchOp kind q v) = Ret q) by reflexivity.
  assert (Hk : forall q k, k <> "path" ->
                 get_prop (JsonPatchOp kind q v) k
                 = get_prop (JsonPatchOp kind path v) k).
  { intros q k Hne. simpl.
    destruct (String.eqb k "op"); [reflexivity|].
    destruct (String.eqb_spec k "path"); [contradiction|reflexivity]. }
  unfold_M. rewrite !Hp.
  rewrite (Hk (String "/" (hd "" (split_slash (strip_slash path)))) "op"),
          (Hk (String "/" (hd "" (split_slash (strip_slash path)))) "value")
    by discriminate.
  cbn [strip_slash].
  rewrite (split_slash_no_slash _ (split_slash_hd_no_slash (strip_slash path))).
  reflexivity.
Qed.

Lemma llm_apply_op_keeps_updates S now p src op updates w updates' w' :
  createLLMBridge.apply_op S now p src op updates w = (Ret (Continue updates'), w') ->
  valid_locs (heap w) updates ->
  valid_locs (heap w) (getDefaults S) ->
  List.NoDup (map fst updates) ->
  length (heap w) <= length (heap w')
  /\ valid_locs (heap w') updates'
  /\ List.NoDup (map fst updates').
Proof.
  unfold createLLMBridge.apply_op. unfold_M. intros H Hv Hdef Hnd.
  repeat (case_match; simplify_eq; simpl in * );
    repeat match goal with |- _ /\ _ => split end;
    rewrite ?length_app; simpl;
    try lia; try assumption;
    try (apply NoDup_keys_assign; assumption).
  - apply valid_locs_assign; [assumption|].
    eapply valid_locs_lookup; [exact Hdef|eassumption].
  - apply valid_locs_assign; [apply valid_locs_app; assumption|].
    rewrite length_app. simpl. lia.
Qed.

Lemma llm_loop_keeps_updates S now p src ops :
  forall updates w updates' w',
    createLLMBridge.applyPatch_loop S now p src ops updates w
    = (Ret (Continue updates'), w') ->
    valid_locs (heap w) updates ->
    valid_locs (heap w) (getDefaults S) ->
    List.NoDup (map fst updates) ->
    length (heap w) <= length (heap w')
    /\ valid_locs (heap w') updates'
    /\ List.NoDup (map fst updates').
Proof.
  induction ops as [|op rest IH]; intros updates w updates' w' H Hv Hdef Hnd;
    simpl in H.
  - inversion H; subst. auto.
  - apply bind_M_inv in H as [(a & w1 & Hop & Hk)|(e & _ & ?)]; [|discriminate].
    destruct a as [c|r]; [|discriminate].
    apply llm_apply_op_keeps_updates in Hop as (Hle & Hv1 & Hnd1); try assumption.
    apply IH in Hk as (Hle' & Hv' & Hnd'); try assumption.
    + repeat split; try assumption. lia.
    + eapply valid_locs_mono; [exact Hdef|exact Hle].
Qed.

(** The stand-alone bridge does not look at what [setMany] answers.  Take a
    batch of operations whose first path segments are not names that every
    object inherits, so that the loop's [fieldName in schema.fields] is the
    own-key test, and let the loop accept every operation, collecting
    updates whose keys are all registered.  Then the result is a success
    with the length of the batch, even when [setMany] refuses the updates
    because one of them fails validation; in that case nothing is written
    and the caller is still told that everything was applied. *)
Theorem createLLMBridge_reports_success_without_commit
    (S : DuetSchema) (now : Z) (p : list value) (src : Source) (w : World)
    (updates : obj loc) (w1 : World) (k : string) (l : loc) (fd : FieldDef)
    (m : string) :
  Forall (fun op => ordinary_root op = true) p ->
  valid_locs (heap w) (data w) ->
  valid_locs (heap w) (getDefaults S) ->
  createLLMBridge.applyPatch_loop S now p src p [] w
  = (Ret (Continue updates), w1) ->
  forallb (fun kv => has_key (fst kv) (fields S)) updates = true ->
  ordinary_keys updates = true ->
  lookup_key k updates = Some l ->
  lookup_key k (fields S) = Some fd ->
  schema fd (deref (heap w1) l) = ParseErr m ->
  exists w',
    createLLMBridge.applyPatch S now p src w = (Ret (Success (length p)), w')
    /\ snapshot w' = snapshot w.
Proof.
  intros _ Hv Hdef Hloop _ _ Hk Hfd Herr.
  pose proof (llm_loop_keeps_updates _ _ _ _ _ _ _ _ _ Hloop) as Hkeep.
  destruct Hkeep as (Hle & Hv1 & Hnd1);
    [constructor | exact Hdef | constructor |].
  assert (Hframe : (exists ds, heap w1 = heap w ++ ds) /\ data w1 = data w).
  { clear -Hloop Hv.
    assert (Hgen : forall ops updates0 w0 sr w2,
               createLLMBridge.applyPatch_loop S now p src ops updates0 w0
               = (Ret sr, w2) ->
               (exists ds, heap w2 = heap w0 ++ ds) /\ data w2 = data w0).
    { induction ops as [|op rest IH]; intros updates0 w0 sr w2 H; simpl in H.
      - inversion H; subst. split; [exists []; rewrite app_nil_r|]; reflexivity.
      - apply bind_M_inv in H as [(a & w3 & Hop & Hk)|(e & _ & ?)]; [|discriminate].
        assert (Hpath : exists path, op_path op = Ret path).
        { unfold createLLMBridge.apply_op in Hop. unfold_M.
          destruct (op_path op); [eauto|discriminate]. }
        destruct Hpath as [path Hpath].
        destruct (llm_apply_op_frame _ _ _ _ _ _ _ _ _ _ Hpath Hop)
          as (_ & [d1 H1] & Hd1 & _).
        destruct a as [c|r].
        + destruct (IH _ _ _ _ Hk) as ([d2 H2] & Hd2).
          split; [exists (d1 ++ d2); rewrite H2, H1, app_assoc; reflexivity|congruence].
        + inversion Hk; subst. eauto. }
    eapply Hgen. exact Hloop. }
  destruct Hframe as ([d1 H1] & Hd1).
  assert (Hvd1 : valid_locs (heap w1) (data w1)).
  { rewrite Hd1, H1. apply valid_locs_app. exact Hv. }
  pose proof (setMany_spec S updates w1 Hv1 Hvd1 Hnd1) as Hspec.
  rewrite (forallb_entry_ok_false S (heap w1) updates k l fd m Hk Hfd Herr) in Hspec.
  destruct Hspec as (w2 & Hset & Hal).
  unfold createLLMBridge.applyPatch.
  rewrite (bind_M_ret _ _ _ _ _ Hloop), (bind_M_ret _ _ _ _ _ Hset). unfold_M.
  eexists. split; [reflexivity|].
  change (snapshot w2 = snapshot w).
  rewrite (only_allocates_snapshot w1 w2 Hvd1 Hal).
  unfold snapshot. rewrite H1, Hd1. apply view_app. exact Hv.
Qed.

(** The form of the README: [remove /name] puts back the default [''],
    which the schema of [name] rejects.  The bridge answers
    [{ success: true, applied: 1 }] and the store is as before. *)
Lemma createLLMBridge_reports_success_witness :
  exists w',
    createLLMBridge.applyPatch (fst ContactForm) 0
      [JsonPatchOp "remove" "/name" None] llm (snd ContactForm)
    = (Ret (Success 1), w')
    /\ snapshot w' = snapshot (snd ContactForm).
Proof.
  assert (Hv : valid_locs (heap (snd ContactForm)) (data (snd ContactForm))).
  { unfold valid_locs. repeat constructor. }
  assert (Hdef : valid_locs (heap (snd ContactForm)) (getDefaults (fst ContactForm))).
  { unfold valid_locs. repeat constructor. }
  apply (createLLMBridge_reports_success_without_commit (fst ContactForm) 0
           [JsonPatchOp "remove" "/name" None] llm (snd ContactForm)
           [("name", 0)] (snd ContactForm) "name" 0
           (mkFieldDef (z.string_min 1) "Full Name" 0)
           "String must contain more characters");
    [repeat constructor|exact Hv|exact Hdef|reflexivity..].
Defined.

(** ** The drop-in bridge ([attachLLM]) *)

Lemma attach_apply_op_frame shape now p src op updates w r w' path :
  op_path op = Ret path ->
  attachLLM.apply_op shape now p src op updates w = (r, w') ->
  (exists sr, r = Ret sr)
  /\ (exists ds, heap w' = heap w ++ ds)
  /\ data w' = data w
  /\ match r with
     | Ret (Return res) =>
         (exists m, res = Failure m)
         /\ patchHistory w'
            = patchHistory w
                ++ [mkHistoryEntry (pretty (Datatypes.S (historyId w))) now p src res]
         /\ historyId w' = Datatypes.S (historyId w)
     | _ => patchHistory w' = patchHistory w /\ historyId w' = historyId w
     end.
Proof.
  intros Hpath H.
  destruct (op_path_get_prop op path "op" Hpath) as [kind Hkind].
  destruct (op_path_get_prop op path "value" Hpath) as [v Hv].
  unfold attachLLM.apply_op, attachLLM.assign_current, attachLLM.validateField in H.
  unfold_M. rewrite Hpath, Hkind, Hv in H.
  repeat (case_match; simplify_eq; simpl in * );
    repeat match goal with |- _ /\ _ => split end;
    eauto;
    try (exists []; rewrite app_nil_r; reflexivity).
Qed.

Lemma attach_loop_frame shape now p src ops :
  forall updates w,
    Forall (fun op => exists path, op_path op = Ret path) ops ->
    exists sr w',
      attachLLM.applyPatch_loop shape now p src ops updates w = (Ret sr, w')
      /\ (exists ds, heap w' = heap w ++ ds)
      /\ data w' = data w
      /\ match sr with
         | Return res =>
             (exists m, res = Failure m)
             /\ patchHistory w'
                = patchHistory w
                    ++ [mkHistoryEntry (pretty (Datatypes.S (historyId w))) now p src res]
             /\ historyId w' = Datatypes.S (historyId w)
         | Continue _ => patchHistory w' = patchHistory w /\ historyId w' = historyId w
         end.
Proof.
  induction ops as [|op rest IH]; intros updates w Hall.
  - exists (Continue updates), w. simpl. repeat split.
    exists []. rewrite app_nil_r. reflexivity.
  - inversion Hall as [|? ? [path Hpath] Hrest]; subst.
    destruct (attachLLM.apply_op shape now p src op updates w) as [r w1] eqn:Hop.
    destruct (attach_apply_op_frame _ _ _ _ _ _ _ _ _ _ Hpath Hop)
      as ([sr ->] & [d1 H1] & Hd1 & Hlog1).
    simpl. rewrite (bind_M_ret _ _ _ _ _ Hop).
    destruct sr as [updates'|res].
    + destruct (IH updates' w1 Hrest) as (sr2 & w2 & Hrun & [d2 H2] & Hd2 & Hlog2).
      exists sr2, w2. split; [exact Hrun|]. split.
      { exists (d1 ++ d2). rewrite H2, H1, app_assoc. reflexivity. }
      split; [congruence|].
      destruct Hlog1 as [Hp1 Hi1]. rewrite <- Hp1, <- Hi1. exact Hlog2.
    + exists (Return res), w1. split; [reflexivity|]. eauto.
Qed.

(** The drop-in bridge is total and atomic on failure: for every batch of
    operations that are objects with a string path, [applyPatch] returns a
    result and logs exactly one entry with it; it never modifies an object
    that exists; a failure leaves the snapshot as it was, and a success
    always reports the length of the batch. *)
Theorem attachLLM_applyPatch_total_and_atomic
    (shape : obj (value -> parse_result)) (now : Z) (p : list value)
    (src : Source) (w : World) :
  Forall (fun op => exists path, op_path op = Ret path) p ->
  valid_locs (heap w) (data w) ->
  exists r w',
    attachLLM.applyPatch shape now p src w = (Ret r, w')
    /\ (exists ds, heap w' = heap w ++ ds)
    /\ patchHistory w'
       = patchHistory w
           ++ [mkHistoryEntry (pretty (Datatypes.S (historyId w))) now p src r]
    /\ (forall m, r = Failure m -> snapshot w' = snapshot w)
    /\ (forall n, r = Success n -> n = length p).
Proof.
  intros Hall Hv.
  destruct (attach_loop_frame shape now p src p [] w Hall)
    as (sr & w1 & Hloop & [d1 H1] & Hd1 & Hlog).
  unfold attachLLM.applyPatch. rewrite (bind_M_ret _ _ _ _ _ Hloop).
  destruct sr as [updates|res].
  - destruct Hlog as [Hp1 Hi1]. unfold attachLLM.setState. unfold_M.
    eexists _, _. split; [reflexivity|]. simpl.
    split; [eauto|]. split; [rewrite Hp1, Hi1; reflexivity|].
    split; [intros m Hm; discriminate|]. intros n Hn. inversion Hn. reflexivity.
  - destruct Hlog as ([m0 ->] & Hp1 & Hi1).
    eexists _, w1. split; [reflexivity|]. split; [eauto|]. split; [exact Hp1|].
    split; [|intros n Hn; discriminate].
    intros m _. unfold snapshot. rewrite H1, Hd1. apply view_app. exact Hv.
Qed.

(** [does not modify state when validation fails], from the tests. *)
Lemma attachLLM_applyPatch_witness :
  exists m w',
    attachLLM.applyPatch TaskShape 0
      [JsonPatchOp "replace" "/priority" (Some (VNum 100))] llm TaskWorld
    = (Ret (Failure m), w')
    /\ snapshot w' = snapshot TaskWorld.
Proof.
  assert (Hv : valid_locs (heap TaskWorld) (data TaskWorld)).
  { unfold valid_locs. repeat constructor. }
  destruct (attachLLM_applyPatch_total_and_atomic TaskShape 0
              [JsonPatchOp "replace" "/priority" (Some (VNum 100))] llm TaskWorld)
    as (r & w' & Hrun & _ & _ & Hatomic & _).
  - repeat constructor; eexists; reflexivity.
  - exact Hv.
  - assert (Hr : r = Failure
        "Invalid value for priority: Number must be less than or equal to the maximum").
    { vm_compute in Hrun. inversion Hrun. reflexivity. }
    exists "Invalid value for priority: Number must be less than or equal to the maximum", w'.
    split; [rewrite Hrun, Hr; reflexivity|]. apply (Hatomic _ Hr).
Defined.

Lemma assign_same {A} (k : string) (v : A) (o : obj A) :
  lookup_key k o = Some v -> assign k v o = o.
Proof.
  induction o as [|[k0 v0] o IH]; simpl; [discriminate|].
  destruct (String.eqb_spec k k0) as [->|Hne].
  - intros [= ->]. reflexivity.
  - intros H. rewrite IH by exact H. reflexivity.
Qed.

Lemma spread_same {A} (a b : obj A) :
  Forall (fun kv => lookup_key (fst kv) a = Some (snd kv)) b -> spread a b = a.
Proof.
  unfold spread. induction 1 as [|[k v] b Hk _ IH]; simpl; [reflexivity|].
  simpl in Hk. rewrite assign_same by exact Hk. exact IH.
Qed.

Lemma Forall_assign {A} (P : string * A -> Prop) (k : string) (v : A) (o : obj A) :
  Forall P o -> P (k, v) -> Forall P (assign k v o).
Proof.
  intros Ho Hkv. induction Ho as [|[k0 v0] o H0 Ho IH]; simpl.
  - constructor; [exact Hkv|constructor].
  - destruct (String.eqb_spec k k0) as [->|Hne]; constructor; assumption.
Qed.

(** In the drop-in bridge the "default" of a field is the value the store
    holds now, so [remove] resets nothing.  A batch of [remove] operations
    on fields of the schema that the store has succeeds, reports every
    operation as applied and leaves the world as it was, but for the log
    entry. *)
Theorem attachLLM_remove_changes_nothing
    (shape : obj (value -> parse_result)) (now : Z) (p : list value)
    (src : Source) (w : World) :
  Forall (fun op =>
            exists path kind l,
              op_path op = Ret path
              /\ attachLLM.includes (attachLLM.fieldIds shape)
                   (hd "" (split_slash (strip_slash path))) = true
              /\ get_prop op "op" = Ret kind
              /\ is_str kind "remove" = true
              /\ lookup_key (hd "" (split_slash (strip_slash path))) (data w)
                 = Some l) p ->
  exists w',
    attachLLM.applyPatch shape now p src w = (Ret (Success (length p)), w')
    /\ heap w' = heap w
    /\ data w' = data w
    /\ snapshot w' = snapshot w.
Proof.
  intros Hall.
  assert (Hloop : forall ops updates,
             Forall (fun op =>
                       exists path kind l,
                         op_path op = Ret path
                         /\ attachLLM.includes (attachLLM.fieldIds shape)
                              (hd "" (split_slash (strip_slash path))) = true
                         /\ get_prop op "op" = Ret kind
                         /\ is_str kind "remove" = true
                         /\ lookup_key (hd "" (split_slash (strip_slash path))) (data w)
                            = Some l) ops ->
             Forall (fun kv => lookup_key (fst kv) (data w) = Some (snd kv)) updates ->
             exists updates',
               attachLLM.applyPatch_loop shape now p src ops updates w
               = (Ret (Continue updates'), w)
               /\ Forall (fun kv => lookup_key (fst kv) (data w) = Some (snd kv))
                         updates').
  { induction ops as [|op rest IH]; intros updates Hops Hup.
    - exists updates. split; [reflexivity|exact Hup].
    - inversion Hops as [|? ? (path & kind & l & Hpath & Hinc & Hkind & Hrm & Hl) Hrest];
        subst.
      destruct (IH (assign (hd "" (split_slash (strip_slash path))) l updates) Hrest)
        as (updates' & Hrun & Hup').
      { apply Forall_assign; auto. }
      exists updates'. split; [|exact Hup'].
      simpl. unfold attachLLM.apply_op at 1, attachLLM.assign_current. unfold_M.
      rewrite Hpath, Hinc. cbn [negb]. rewrite Hkind, Hrm, Hl. exact Hrun. }
  destruct (Hloop p [] Hall) as (updates & Hrun & Hup); [constructor|].
  unfold attachLLM.applyPatch. rewrite (bind_M_ret _ _ _ _ _ Hrun).
  unfold attachLLM.setState. unfold_M.
  eexists. split; [reflexivity|]. simpl.
  rewrite (spread_same (data w) updates Hup). repeat split.
Qed.

(** [remove /title] and [remove /priority] on the store of the tests. *)
Lemma attachLLM_remove_changes_nothing_witness :
  exists w',
    attachLLM.applyPatch TaskShape 0
      [JsonPatchOp "remove" "/title" None; JsonPatchOp "remove" "/priority" None]
      llm TaskWorld
    = (Ret (Success 2), w')
    /\ snapshot w' = snapshot TaskWorld.
Proof.
  destruct (attachLLM_remove_changes_nothing TaskShape 0
              [JsonPatchOp "remove" "/title" None; JsonPatchOp "remove" "/priority" None]
              llm TaskWorld) as (w' & Hrun & _ & _ & Hsnap).
  - constructor; [|constructor; [|constructor]].
    + exists "/title", (VStr "remove"), 0%nat. repeat split.
    + exists "/priority", (VStr "remove"), 1%nat. repeat split.
  - exists w'. split; [exact Hrun|exact Hsnap].
Defined.

Lemma attach_apply_op_keeps_keys shape now p src op updates w updates' w' :
  attachLLM.apply_op shape now p src op updates w = (Ret (Continue updates'), w') ->
  List.NoDup (map fst updates) -> List.NoDup (map fst updates').
Proof.
  unfold attachLLM.apply_op, attachLLM.assign_current. unfold_M. intros H Hnd.
  repeat (case_match; simplify_eq; simpl in * );
    try assumption; apply NoDup_keys_assign; assumption.
Qed.

Lemma attach_loop_keeps_keys shape now p src ops :
  forall updates w updates' w',
    attachLLM.applyPatch_loop shape now p src ops updates w
    = (Ret (Continue updates'), w') ->
    List.NoDup (map fst updates) -> List.NoDup (map fst updates').
Proof.
  induction ops as [|op rest IH]; intros updates w updates' w' H Hnd; simpl in H.
  - inversion H; subst. exact Hnd.
  - apply bind_M_inv in H as [(a & w1 & Hop & Hk)|(e & _ & ?)]; [|discriminate].
    destruct a as [c|r]; [|discriminate].
    eapply IH; [exact Hk|]. eapply attach_apply_op_keeps_keys; eauto.
Qed.

Lemma attach_loop_app shape now p src pre :
  forall post updates w updates' w1,
    attachLLM.applyPatch_loop shape now p src pre updates w
    = (Ret (Continue updates'), w1) ->
    attachLLM.applyPatch_loop shape now p src (pre ++ post) updates w
    = attachLLM.applyPatch_loop shape now p src post updates' w1.
Proof.
  induction pre as [|op rest IH]; intros post updates w updates' w1 H; simpl in *.
  - inversion H; subst. reflexivity.
  - apply bind_M_inv in H as [(a & w2 & Hop & Hk)|(e & _ & ?)]; [|discriminate].
    rewrite (bind_M_ret _ _ _ _ _ Hop).
    destruct a as [c|r]; [|discriminate]. apply IH. exact Hk.
Qed.

(** In the drop-in bridge a [remove] takes back what the batch wrote to the
    field before it: after a batch that ends with [remove /f], the field
    [f] holds what the store held before the call, and the operations that
    wrote to it are still counted as applied. *)
Theorem attachLLM_remove_takes_back_earlier_writes
    (shape : obj (value -> parse_result)) (now : Z) (src : Source) (w : World)
    (pre : list value) (rm : value) (path : string) (kind : value)
    (updates : obj loc) (w1 : World) (l : loc) :
  valid_locs (heap w) (data w) ->
  Forall (fun op => exists q, op_path op = Ret q) pre ->
  attachLLM.applyPatch_loop shape now (pre ++ [rm]) src pre [] w
  = (Ret (Continue updates), w1) ->
  op_path rm = Ret path ->
  attachLLM.includes (attachLLM.fieldIds shape)
    (hd "" (split_slash (strip_slash path))) = true ->
  get_prop rm "op" = Ret kind ->
  is_str kind "remove" = true ->
  lookup_key (hd "" (split_slash (strip_slash path))) (data w) = Some l ->
  exists w',
    attachLLM.applyPatch shape now (pre ++ [rm]) src w
    = (Ret (Success (length (pre ++ [rm]))), w')
    /\ lookup_key (hd "" (split_slash (strip_slash path))) (snapshot w')
       = lookup_key (hd "" (split_slash (strip_slash path))) (snapshot w).
Proof.
  intros Hv Hpre Hloop Hpath Hinc Hkind Hrm Hl.
  set (f := hd "" (split_slash (strip_slash path))) in *.
  destruct (attach_loop_frame shape now (pre ++ [rm]) src pre [] w Hpre)
    as (sr & w1' & Hloop' & [d1 H1] & Hd1 & _).
  rewrite Hloop in Hloop'. inversion Hloop'; subst sr w1'; clear Hloop'.
  pose proof (attach_loop_keeps_keys _ _ _ _ _ _ _ _ _ Hloop (List.NoDup_nil _))
    as Hnd.
  assert (Hstep : attachLLM.apply_op shape now (pre ++ [rm]) src rm updates w1
                  = (Ret (Continue (assign f l updates)), w1)).
  { unfold attachLLM.apply_op, attachLLM.assign_current. unfold_M.
    rewrite Hpath. fold f. rewrite Hinc. cbn [negb]. rewrite Hkind, Hrm, Hd1, Hl.
    reflexivity. }
  assert (Hall : attachLLM.applyPatch_loop shape now (pre ++ [rm]) src (pre ++ [rm]) [] w
                 = (Ret (Continue (assign f l updates)), w1)).
  { rewrite (attach_loop_app _ _ _ _ _ _ _ _ _ _ Hloop). simpl.
    rewrite (bind_M_ret _ _ _ _ _ Hstep). reflexivity. }
  unfold attachLLM.applyPatch. rewrite (bind_M_ret _ _ _ _ _ Hall).
  unfold attachLLM.setState. unfold_M.
  eexists. split; [reflexivity|].
  unfold snapshot. simpl. rewrite !lookup_key_view, Hd1.
  rewrite lookup_key_spread by (apply NoDup_keys_assign; exact Hnd).
  rewrite lookup_key_assign_eq, Hl, H1.
  rewrite deref_app_l by exact (valid_locs_lookup _ _ _ _ Hv Hl). reflexivity.
Qed.

(** [replace /title "Updated"] followed by [remove /title]: two operations
    applied, the title is the old one. *)
Lemma attachLLM_remove_takes_back_witness :
  exists w',
    attachLLM.applyPatch TaskShape 0
      [JsonPatchOp "replace" "/title" (Some (VStr "Updated"));
       JsonPatchOp "remove" "/title" None] llm TaskWorld
    = (Ret (Success 2), w')
    /\ lookup_key "title" (snapshot w') = Some (VStr "").
Proof.
  assert (Hv : valid_locs (heap TaskWorld) (data TaskWorld)).
  { unfold valid_locs. repeat constructor. }
  destruct (attachLLM_remove_takes_back_earlier_writes TaskShape 0 llm TaskWorld
              [JsonPatchOp "replace" "/title" (Some (VStr "Updated"))]
              (JsonPatchOp "remove" "/title" None) "/title" (VStr "remove")
              [("title", 3)]
              (mkWorld (heap TaskWorld ++ [VStr "Updated"]) (data TaskWorld) [] 0)
              0 Hv) as (w' & Hrun & Hsnap); try reflexivity.
  - repeat constructor. eexists. reflexivity.
  - exists w'. split; [exact Hrun|exact Hsnap].
Defined.

(** ** The log over many calls *)

Lemma entries_from_fields n calls rs :
  length rs = length calls ->
  map patch (entries_from n calls rs) = map call_patch calls
  /\ map source (entries_from n calls rs) = map call_source calls
  /\ map timestamp (entries_from n calls rs) = map call_time calls
  /\ map result (entries_from n calls rs) = rs.
Proof.
  revert n rs. induction calls as [|c rest IH]; intros n [|r rs] H; simpl in *;
    try discriminate; auto.
  destruct (IH (Datatypes.S n) rs) as (H1 & H2 & H3 & H4); [congruence|].
  rewrite H1, H2, H3, H4. auto.
Qed.

(** After any number of calls of [applyPatch] that all return, the log has
    grown by one entry per call, in call order; the entries are numbered
    with the decimal strings that follow the counter, and each records the
    batch, the source, the time and the result of its call. *)
Theorem history_after_calls
    (S : DuetSchema) (calls : list call) (w : World) (rs : list EditResult)
    (w' : World) :
  applyPatch_all S calls w = (Ret rs, w') ->
  exists es,
    history w' = history w ++ es
    /\ length es = length calls
    /\ map id es = map pretty (seq (Datatypes.S (historyId w)) (length calls))
    /\ map patch es = map call_patch calls
    /\ map source es = map call_source calls
    /\ map timestamp es = map call_time calls
    /\ map result es = rs
    /\ historyId w' = (historyId w + length calls)%nat.
Proof.
  intros Hrun. apply applyPatch_all_log in Hrun as (Hlen & Hp & Hi).
  exists (entries_from (historyId w) calls rs).
  destruct (entries_from_fields (historyId w) calls rs Hlen) as (H1 & H2 & H3 & H4).
  split; [exact Hp|]. split; [apply entries_from_length; exact Hlen|].
  split; [apply entries_from_ids; exact Hlen|]. auto.
Qed.

(** Two calls on the store of the tests, one accepted and one rejected:
    entries "1" and "2". *)
Lemma history_after_calls_witness :
  exists rs w',
    applyPatch_all TestSchema
      [mkCall [JsonPatchOp "replace" "/count" (Some (VNum 10))] user 5;
       mkCall [JsonPatchOp "replace" "/count" (Some (VNum 999))] system 6]
      TestWorld = (Ret rs, w')
    /\ map id (history w') = ["1"; "2"]
    /\ map source (history w') = [user; system].
Proof.
  eexists _, _. split; [vm_compute; reflexivity|].
  match goal with
  | |- map id (history ?w1) = _ /\ _ =>
      destruct (history_after_calls TestSchema
                  [mkCall [JsonPatchOp "replace" "/count" (Some (VNum 10))] user 5;
                   mkCall [JsonPatchOp "replace" "/count" (Some (VNum 999))] system 6]
                  TestWorld _ w1 eq_refl)
        as (es & Hh & _ & Hid & _ & Hsrc & _)
  end.
  rewrite Hh. simpl. split; [exact Hid|exact Hsrc].
Defined.

(** ** More on [applyJSON] and on the log *)

(** Malformed input never reaches the engine.  Text that [JSON.parse]
    rejects gives a failure that starts with [JSON parse error: ] and
    carries the parser's message; a parsed value that is not an array and
    whose [patch] member can be read but is not an array gives the format
    message.  In both cases the store and the log are untouched. *)
Theorem applyJSON_rejects_malformed_input
    (JSON_parse : string -> outcome value) (S : DuetSchema) (json : string)
    (src : Source) (now : Z) (w : World) :
  (forall e,
      JSON_parse json = Throw e ->
      applyJSON JSON_parse S json src now w
      = (Ret (Failure ("JSON parse error: " ++ exn_message e)), w))
  /\ (forall v inner,
        JSON_parse json = Ret v ->
        isArray v = false ->
        get_prop v "patch" = Ret inner ->
        isArray inner = false ->
        applyJSON JSON_parse S json src now w
        = (Ret (Failure "Expected JSON Patch array or { patch: [...] } format"), w)).
Proof.
  split.
  - intros e. apply applyJSON_syntax_error.
  - intros v inner. apply applyJSON_wrong_shape.
Qed.

(** [not json] and [42]. *)
Lemma applyJSON_rejects_malformed_input_witness :
  applyJSON sample_JSON_parse_more TestSchema "not json" llm 0 TestWorld
  = (Ret (Failure "JSON parse error: Unexpected token"), TestWorld)
  /\ applyJSON sample_JSON_parse_more TestSchema "42" llm 0 TestWorld
     = (Ret (Failure "Expected JSON Patch array or { patch: [...] } format"),
        TestWorld).
Proof.
  split.
  - apply (proj1 (applyJSON_rejects_malformed_input sample_JSON_parse_more
                    TestSchema "not json" llm 0 TestWorld)
                 (SyntaxError "Unexpected token")).
    reflexivity.
  - apply (proj2 (applyJSON_rejects_malformed_input sample_JSON_parse_more
                    TestSchema "42" llm 0 TestWorld) (VNum 42) VUndef);
      reflexivity.
Defined.

(** The nested [remove] below an absent segment, sent as text: a failure
    result that calls itself a parse error, and no entry in the log. *)
Lemma applyJSON_fault_is_not_logged_witness :
  exists e w',
    applyJSON sample_JSON_parse_more NestedSchema remove_text llm 0 NestedWorld
    = (Ret (Failure ("JSON parse error: " ++ exn_message e)), w')
    /\ patchHistory w' = [].
Proof.
  destruct (applyJSON_fault_is_not_logged sample_JSON_parse_more NestedSchema
              remove_text llm 0 NestedWorld remove_under_absent
              (TypeError "Cannot convert undefined or null to object") NestedWorld)
    as [Hrun Hlog]; try reflexivity.
  eexists _, _. split; [exact Hrun|exact Hlog].
Defined.

(** The batch of the tests whose second operation is invalid: rejected, and
    the snapshot is the one before. *)
Lemma applyPatch_atomic_witness :
  exists m w',
    applyPatch TestSchema 0
      [JsonPatchOp "replace" "/name" (Some (VStr "new"));
       JsonPatchOp "replace" "/count" (Some (VNum 999))] llm TestWorld
    = (Ret (Failure m), w')
    /\ snapshot w' = snapshot TestWorld.
Proof.
  assert (Hv : valid_locs (heap TestWorld) (data TestWorld)).
  { unfold valid_locs. repeat constructor. }
  eexists _, _. split; [vm_compute; reflexivity|].
  eapply (applyPatch_atomic_without_nested_remove TestSchema 0
            [JsonPatchOp "replace" "/name" (Some (VStr "new"));
             JsonPatchOp "replace" "/count" (Some (VNum 999))] llm TestWorld
            _ _ Hv eq_refl eq_refl).
  intros n. discriminate.
Defined.

(** A call on the store of the tests after [clearHistory()]. *)
Lemma clearHistory_restarts_witness :
  exists res w',
    applyPatch TestSchema 7 [JsonPatchOp "replace" "/count" (Some (VNum 10))]
               user (snd (clearHistory TestWorld)) = (Ret res, w')
    /\ map id (history w') = ["1"].
Proof.
  eexists _, _. split; [vm_compute; reflexivity|].
  match goal with
  | |- map id (history ?w1) = _ =>
      destruct (clearHistory_restarts TestSchema 7
                  [JsonPatchOp "replace" "/count" (Some (VNum 10))] user TestWorld
                  _ w1 eq_refl) as [_ Hh]
  end.
  rewrite Hh. reflexivity.
Defined.

(** [remove /contact/address/street] on a contact without [address]. *)
Lemma nav_delete_absent_throws_witness :
  exists e, nav_delete contact_default ["address"; "street"] = Throw (TypeError e).
Proof.
  apply (nav_delete_absent_throws [] contact_default
           [("name", VStr ""); ("email", VStr ""); ("phone", VStr "")]
           "address" ["street"]);
    [reflexivity|reflexivity|reflexivity|discriminate].
Defined.
